(** * babyjubjub-ecdsa: Merkle accumulator and Efficient-ECDSA input deriver

    A shallow embedding of [generateMerkleProof], [computeMerkleRoot] and
    [getPublicInputsFromSignature] (packages/lib/src, the input-generation
    module) together with the record types of [types.ts].

    Conventions of the embedding:
    - a JS [bigint] and an integral JS [number] are both [Z];
      [%] is [Z.rem] (sign of the dividend) and [Math.floor(a / 2)] is
      [a / 2] ([Z.div] rounds towards minus infinity);
    - an array is a [list]; reading [a[k]] is [js_get a k], which is [None]
      (JS [undefined]) for a negative or too large [k];
    - a call either returns or throws: [outcome A];
    - [async]/[await] is sequential evaluation: the functions hold no shared
      state and every promise is awaited before the next statement. *)

From Stdlib Require Import ZArith Zcong Znumtheory Lia.
From stdpp Require Import base tactics option list list_numbers.
From Bignums Require BigZ.

Local Open Scope Z_scope.

(** ** Thrown values and call outcomes *)

(** The values that a call can throw.  [CollaboratorError] stands for an
    [Error] raised inside a library the module calls (ffjavascript,
    elliptic, the point classes); [NoValidCandidateFound] is the module's
    own [new Error("Could not find valid public inputs")];
    [IndexOutOfRange] is the error kind the specification names for a bad
    Merkle index. *)
Inductive exn : Type :=
| CollaboratorError (kind : Z)
| NoValidCandidateFound
| IndexOutOfRange.

Inductive outcome (A : Type) : Type :=
| Returns (a : A)
| Throws (e : exn).
Arguments Returns {A} a.
Arguments Throws {A} e.

Definition bind {A B} (m : outcome A) (k : A -> outcome B) : outcome B :=
  match m with
  | Returns a => k a
  | Throws e => Throws e
  end.

Notation "x <- m ;; k" := (bind m (fun x => k))
  (at level 100, m at next level, right associativity).

(** What a call into a library answers: a value, or an error of the
    library's own, told apart by its kind. *)
Inductive answer (A : Type) : Type :=
| Ok (a : A)
| Raise (kind : Z).
Arguments Ok {A} a.
Arguments Raise {A} kind.

(** An uncaught library error propagates as it is. *)
Definition call {A} (x : answer A) : outcome A :=
  match x with
  | Ok a => Returns a
  | Raise kind => Throws (CollaboratorError kind)
  end.

(** Kinds of library errors used by the models below. *)
Definition DivisionByZero : Z := 0.
Definition InvalidPoint : Z := 1.
Definition ConversionError : Z := 2.
Definition PointAtInfinity : Z := 3.

(** ** Data model ([babyJubjub.ts], [types.ts]) *)

Record EdwardsPoint := mkEdwards { ex : Z; ey : Z }.
Record WeierstrassPoint := mkWeierstrass { wx : Z; wy : Z }.

Record Signature := mkSignature { r : Z; s : Z }.

(** [root] and the entries of [siblings] are declared [bigint]; at run time
    they are whatever the array reads produced, so they are optional here. *)
Record MerkleProof := mkMerkleProof {
  root : option Z;
  pathIndices : list Z;
  siblings : list (option Z)
}.

(** [a[k]] for a JS number [k]. *)
Definition js_get {A} (a : list A) (k : Z) : option A :=
  if k <? 0 then None else a !! Z.to_nat k.

(** ** MerkleAccumulator *)

Definition TREE_DEPTH : nat := 8.

Definition ZEROS : list Z :=
  [ 0;
    14744269619966411208579211824598458697587494354926760081771325075741142829156;
    7423237065226347324353380772367382631490014989348495481811164164159255474657;
    11286972368698509976183087595462810875513684078608517520839298933882497716792;
    3607627140608796879659380071776844901612302623152076817094415224584923813162;
    19712377064642672829441595136074946683621277828620209496774504837737984048981;
    20775607673010627194014556968476266066927294572720319469184847051418138353016;
    3396914609616007258851405644437304192397291162432396347162513310381425243293 ].

Section MerkleAccumulator.

(** The hash capability [hashFn]: [poseidon a b] is
    [hexToBigInt(poseidon.F.toString(poseidon([a, b]), 16))], the hash of a
    pair brought back to a [bigint]. *)
Variable poseidon : Z -> Z -> Z.

(** [hashEdwardsPublicKey] of [utils.ts], the leaf hash of a public key. *)
Variable hashEdwardsPublicKey : EdwardsPoint -> Z.

(** The inner loop of [generateMerkleProof]:
    [for (j = 0; j < prevLayer.length; j += 2)] pairs [prevLayer[j]] with
    [prevLayer[j + 1]], or with the level's zero when [j + 1] is the
    length, and pushes the hash of the pair.  Both reads are in bounds. *)
Fixpoint buildNextLayer (zero : Z) (prevLayer : list Z) : list Z :=
  match prevLayer with
  | [] => []
  | [node] => [poseidon node zero]
  | node :: secondNode :: rest =>
      poseidon node secondNode :: buildNextLayer zero rest
  end.

(** The outer loop, from level [i], with [n] levels left to do. *)
Fixpoint levels (n : nat) (i : nat) (index : Z) (prevLayer : list Z)
    (pathIndices : list Z) (siblings : list (option Z)) : MerkleProof :=
  match n with
  | O => mkMerkleProof (js_get prevLayer 0) pathIndices siblings
  | S n' =>
      let zero := ZEROS !!! i in
      let pathIndices := pathIndices ++ [Z.rem index 2] in
      let siblingIndex :=
        if Z.rem index 2 =? 0 then index + 1 else index - 1 in
      let sibling :=
        if siblingIndex =? Z.of_nat (length prevLayer)
        then Some zero
        else js_get prevLayer siblingIndex in
      let siblings := siblings ++ [sibling] in
      let index := index / 2 in
      levels n' (S i) index (buildNextLayer zero prevLayer)
             pathIndices siblings
  end.

Definition generateMerkleProof (pubKeys : list EdwardsPoint) (index : Z)
    : outcome MerkleProof :=
  let leaves := map hashEdwardsPublicKey pubKeys in
  Returns (levels TREE_DEPTH 0 index leaves [] []).

Definition computeMerkleRoot (pubKeys : list EdwardsPoint)
    : outcome (option Z) :=
  proof <- generateMerkleProof pubKeys 0 ;;
  Returns (root proof).

(** The recomputation of the root that the specification describes for a
    verifier: starting from the leaf, each level hashes the running value
    with the sibling, running value on the left for path bit 0 and on the
    right for path bit 1.  Any other path entry, or an absent sibling, has
    no recomputation. *)
Fixpoint recomputeRoot (node : Z) (path : list Z) (sibs : list (option Z))
    : option Z :=
  match path, sibs with
  | [], [] => Some node
  | 0 :: path', Some sib :: sibs' =>
      recomputeRoot (poseidon node sib) path' sibs'
  | 1 :: path', Some sib :: sibs' =>
      recomputeRoot (poseidon sib node) path' sibs'
  | _, _ => None
  end.

End MerkleAccumulator.

(** The relation the specification states between consecutive zero
    constants, for a hash capability [hash]. *)
Definition zeros_chain (hash : Z -> Z -> Z) : Prop :=
  ZEROS !! 0%nat = Some 0 /\
  forall i, (1 <= i <= 7)%nat ->
    ZEROS !! i = Some (hash (ZEROS !!! (i - 1)%nat) (ZEROS !!! (i - 1)%nat)).

(** ** Collaborators of the deriver *)

(** ffjavascript's [ZqField], through the operations the module calls.
    [inv] is the only one that can raise an error. *)
Module ZqField.
Record t := mk {
  p : Z;
  add : Z -> Z -> Z;
  mul : Z -> Z -> Z;
  neg : Z -> Z;
  inv : Z -> answer Z
}.

(** Modelled from the spec: the FieldArithmetic collaborator
    ([new ZqField(m)] of ffjavascript, not part of the sources).  A field
    element is an integer modulo [m], all arithmetic is modular, and the
    inversion of zero is an arithmetic error. *)
Definition new (m : Z) : t :=
  {| p := m;
     add := fun a b => (a + b) mod m;
     mul := fun a b => (a * b) mod m;
     neg := fun a => (- a) mod m;
     inv := fun a =>
       if a mod m =? 0 then Raise DivisionByZero
       else Ok (Z.invmod a m) |}.
End ZqField.

(** The elliptic library's short-Weierstrass curve [babyjubjub.ec.curve] and
    its points.  Scalars travel as hexadecimal strings
    ([rInv.toString(16)], [new BN(r.toString(16), 16)]); the embedding passes
    the integer itself. *)
Module Elliptic.
Record curve := mk {
  point : Type;
  pointFromX : Z -> Z -> answer point;
  g : point;
  mul : point -> Z -> point;
  add : point -> point -> point
}.
End Elliptic.

(** [BabyJubJub] of [types.ts]. *)
Record BabyJubJub := mkBabyJubJub {
  ec : Elliptic.curve;
  Fb : ZqField.t;
  Fs : ZqField.t;
  cofactor : Z
}.

(** The static and instance methods of the [WeierstrassPoint] class that the
    deriver calls ([babyJubjub.ts] is not part of the sources). *)
Record PointModel (C : Elliptic.curve) := mkPointModel {
  fromEllipticPoint : Elliptic.point C -> answer WeierstrassPoint;
  toEdwards : WeierstrassPoint -> answer EdwardsPoint
}.
Arguments fromEllipticPoint {C} _ _.
Arguments toEdwards {C} _ _.

(** Modelled from the spec: [WeierstrassPoint.equals] ([babyJubjub.ts] is not
    part of the sources): points are equal when their canonical coordinates
    are. *)
Definition equals (a b : WeierstrassPoint) : bool :=
  (wx a =? wx b) && (wy a =? wy b).

(** The value [getPublicInputsFromSignature] returns. *)
Record PublicInputs := mkPublicInputs {
  R : EdwardsPoint;
  T : EdwardsPoint;
  U : EdwardsPoint
}.

(** ** SignatureInputDeriver *)

(** A [for] loop whose body either falls through to the next iteration
    ([Returns None]: the end of the body or [continue]), leaves the function
    with a value ([Returns (Some v)]) or throws. *)
Fixpoint forEach {A B} (xs : list A) (body : A -> outcome (option B))
    : outcome (option B) :=
  match xs with
  | [] => Returns None
  | x :: rest =>
      match body x with
      | Returns None => forEach rest body
      | Returns (Some v) => Returns (Some v)
      | Throws e => Throws e
      end
  end.

(** What lines 109-129 of one iteration have computed when the check is
    reached: the recovered point and the Weierstrass forms of [T], [U] and of
    the check point [s*T + U]. *)
Record Checked (point : Type) := mkChecked {
  ecR : point;
  Tw : WeierstrassPoint;
  Uw : WeierstrassPoint;
  sTU : WeierstrassPoint
}.
Arguments mkChecked {point} _ _ _ _.
Arguments ecR {point} _.
Arguments Tw {point} _.
Arguments Uw {point} _.
Arguments sTU {point} _.

Section SignatureInputDeriver.

Variable babyjubjub : BabyJubJub.
Variable WP : PointModel (ec babyjubjub).

(** The candidate x-coordinate of iteration [i], the local [r] of the source:
    [Fb.add(sig.r, Fb.mul(BigInt(i), Fs.p))]. *)
Definition candidateX (sig : Signature) (i : Z) : Z :=
  ZqField.add (Fb babyjubjub) (r sig)
    (ZqField.mul (Fb babyjubjub) i (ZqField.p (Fs babyjubjub))).

(** The body of the two loops up to the check point: the inversion, the
    point recovery inside [try], whose [catch] is [continue], then [T], [U]
    and [s*T + U]. *)
Definition recoverAndCheck (sig : Signature) (msgHash : Z) (i parity : Z)
    : outcome (option (Checked (Elliptic.point (ec babyjubjub)))) :=
  let Fs := Fs babyjubjub in
  let curve := ec babyjubjub in
  let r := candidateX sig i in
  rInv <- call (ZqField.inv Fs r) ;;
  match Elliptic.pointFromX curve r parity with
  | Raise _ => Returns None
  | Ok ecR =>
      let ecT := Elliptic.mul curve ecR rInv in
      T <- call (fromEllipticPoint WP ecT) ;;
      let G := Elliptic.g curve in
      let rInvm := ZqField.neg Fs (ZqField.mul Fs rInv msgHash) in
      let ecU := Elliptic.mul curve G rInvm in
      U <- call (fromEllipticPoint WP ecU) ;;
      let sT := Elliptic.mul curve ecT (s sig) in
      let ecsTU := Elliptic.add curve sT ecU in
      sTU <- call (fromEllipticPoint WP ecsTU) ;;
      Returns (Some (mkChecked ecR T U sTU))
  end.

(** The whole body for one [(i, parity)]: on a match the three points are
    converted and returned, otherwise the loop goes on. *)
Definition candidate (sig : Signature) (msgHash : Z)
    (pubKey : WeierstrassPoint) (i parity : Z)
    : outcome (option PublicInputs) :=
  checked <- recoverAndCheck sig msgHash i parity ;;
  match checked with
  | None => Returns None
  | Some c =>
      if equals (sTU c) pubKey then
        R <- call (fromEllipticPoint WP (ecR c)) ;;
        R' <- call (toEdwards WP R) ;;
        T' <- call (toEdwards WP (Tw c)) ;;
        U' <- call (toEdwards WP (Uw c)) ;;
        Returns (Some (mkPublicInputs R' T' U'))
      else Returns None
  end.

(** What the function does with the result of the loops: a value that left
    the loops is returned, the end of the loops reaches the final [throw]. *)
Definition finish (res : outcome (option PublicInputs))
    : outcome PublicInputs :=
  match res with
  | Returns (Some inputs) => Returns inputs
  | Returns None => Throws NoValidCandidateFound
  | Throws e => Throws e
  end.

Definition getPublicInputsFromSignature (sig : Signature) (msgHash : Z)
    (pubKey : WeierstrassPoint) : outcome PublicInputs :=
  finish
    (forEach (seqZ 0 (cofactor babyjubjub)) (fun i =>
       forEach [0; 1] (fun parity =>
         candidate sig msgHash pubKey i parity))).

(** A candidate satisfies the verification check when its check point is
    reached and is the public key. *)
Definition satisfiesCheck (sig : Signature) (msgHash : Z)
    (pubKey : WeierstrassPoint) (i parity : Z) : Prop :=
  exists c, recoverAndCheck sig msgHash i parity = Returns (Some c) /\
            equals (sTU c) pubKey = true.

(** A candidate is passed over when it is evaluated without an error and
    either has no curve point or a check point other than the public key. *)
Definition passedOver (sig : Signature) (msgHash : Z)
    (pubKey : WeierstrassPoint) (i parity : Z) : Prop :=
  recoverAndCheck sig msgHash i parity = Returns None \/
  exists c, recoverAndCheck sig msgHash i parity = Returns (Some c) /\
            equals (sTU c) pubKey = false.

End SignatureInputDeriver.

(** The enumeration order the specification states: [i] ascending from 0 to
    [cofactor - 1] and, for each [i], parity 0 then parity 1. *)
Definition candidates (cofactor : Z) : list (Z * Z) :=
  flat_map (fun i => [(i, 0); (i, 1)]) (seqZ 0 cofactor).

(** ** The default hash capability *)

(** Modelled from the spec: the HashOracle collaborator, which the
    specification leaves opaque.  The instance the code builds by default
    ([buildPoseidonReference] of circomlibjs, not part of the sources) is
    the reference Poseidon permutation over the base field for a state of
    [t = 3] elements: 8 full and 57 partial rounds, each adding the round
    constants, applying the S-box [x^5] (to the whole state in a full round,
    to its first element in a partial one) and multiplying by the MDS matrix;
    the hash of a pair is the first element of the state that starts as
    [[0, a, b]].  [C] and [M] are the constants of the Poseidon parameter
    generator for these parameters. *)
Module PoseidonReference.
Definition p : Z :=
  21888242871839275222246405745257275088548364400416034343698204186575808495617.

Definition N_ROUNDS_F : nat := 8.
Definition N_ROUNDS_P : nat := 57.
Definition t : nat := 3.

Definition C : list Z :=
  [ 0x0ee9a592ba9a9518d05986d656f40c2114c4993c11bb29938d21d47304cd8e6e;
    0x00f1445235f2148c5986587169fc1bcd887b08d4d00868df5696fff40956e864;
    0x08dff3487e8ac99e1f29a058d0fa80b930c728730b7ab36ce879f3890ecf73f5;
    0x2f27be690fdaee46c3ce28f7532b13c856c35342c84bda6e20966310fadc01d0;
    0x2b2ae1acf68b7b8d2416bebf3d4f6234b763fe04b8043ee48b8327bebca16cf2;
    0x0319d062072bef7ecca5eac06f97d4d55952c175ab6b03eae64b44c7dbf11cfa;
    0x28813dcaebaeaa828a376df87af4a63bc8b7bf27ad49c6298ef7b387bf28526d;
    0x2727673b2ccbc903f181bf38e1c1d40d2033865200c352bc150928adddf9cb78;
    0x234ec45ca27727c2e74abd2b2a1494cd6efbd43e340587d6b8fb9e31e65cc632;
    0x15b52534031ae18f7f862cb2cf7cf760ab10a8150a337b1ccd99ff6e8797d428;
    0x0dc8fad6d9e4b35f5ed9a3d186b79ce38e0e8a8d1b58b132d701d4eecf68d1f6;
    0x1bcd95ffc211fbca600f705fad3fb567ea4eb378f62e1fec97805518a47e4d9c;
    0x10520b0ab721cadfe9eff81b016fc34dc76da36c2578937817cb978d069de559;
    0x1f6d48149b8e7f7d9b257d8ed5fbbaf42932498075fed0ace88a9eb81f5627f6;
    0x1d9655f652309014d29e00ef35a2089bfff8dc1c816f0dc9ca34bdb5460c8705;
    0x04df5a56ff95bcafb051f7b1cd43a99ba731ff67e47032058fe3d4185697cc7d;
    0x0672d995f8fff640151b3d290cedaf148690a10a8c8424a7f6ec282b6e4be828;
    0x099952b414884454b21200d7ffafdd5f0c9a9dcc06f2708e9fc1d8209b5c75b9;
    0x052cba2255dfd00c7c483143ba8d469448e43586a9b4cd9183fd0e843a6b9fa6;
    0x0b8badee690adb8eb0bd74712b7999af82de55707251ad7716077cb93c464ddc;
    0x119b1590f13307af5a1ee651020c07c749c15d60683a8050b963d0a8e4b2bdd1;
    0x03150b7cd6d5d17b2529d36be0f67b832c4acfc884ef4ee5ce15be0bfb4a8d09;
    0x2cc6182c5e14546e3cf1951f173912355374efb83d80898abe69cb317c9ea565;
    0x005032551e6378c450cfe129a404b3764218cadedac14e2b92d2cd73111bf0f9;
    0x233237e3289baa34bb147e972ebcb9516469c399fcc069fb88f9da2cc28276b5;
    0x05c8f4f4ebd4a6e3c980d31674bfbe6323037f21b34ae5a4e80c2d4c24d60280;
    0x0a7b1db13042d396ba05d818a319f25252bcf35ef3aeed91ee1f09b2590fc65b;
    0x2a73b71f9b210cf5b14296572c9d32dbf156e2b086ff47dc5df542365a404ec0;
    0x1ac9b0417abcc9a1935107e9ffc91dc3ec18f2c4dbe7f22976a760bb5c50c460;
    0x12c0339ae08374823fabb076707ef479269f3e4d6cb104349015ee046dc93fc0;
    0x0b7475b102a165ad7f5b18db4e1e704f52900aa3253baac68246682e56e9a28e;
    0x037c2849e191ca3edb1c5e49f6e8b8917c843e379366f2ea32ab3aa88d7f8448;
    0x05a6811f8556f014e92674661e217e9bd5206c5c93a07dc145fdb176a716346f;
    0x29a795e7d98028946e947b75d54e9f044076e87a7b2883b47b675ef5f38bd66e;
    0x20439a0c84b322eb45a3857afc18f5826e8c7382c8a1585c507be199981fd22f;
    0x2e0ba8d94d9ecf4a94ec2050c7371ff1bb50f27799a84b6d4a2a6f2a0982c887;
    0x143fd115ce08fb27ca38eb7cce822b4517822cd2109048d2e6d0ddcca17d71c8;
    0x0c64cbecb1c734b857968dbbdcf813cdf8611659323dbcbfc84323623be9caf1;
    0x028a305847c683f646fca925c163ff5ae74f348d62c2b670f1426cef9403da53;
    0x2e4ef510ff0b6fda5fa940ab4c4380f26a6bcb64d89427b824d6755b5db9e30c;
    0x0081c95bc43384e663d79270c956ce3b8925b4f6d033b078b96384f50579400e;
    0x2ed5f0c91cbd9749187e2fade687e05ee2491b349c039a0bba8a9f4023a0bb38;
    0x30509991f88da3504bbf374ed5aae2f03448a22c76234c8c990f01f33a735206;
    0x1c3f20fd55409a53221b7c4d49a356b9f0a1119fb2067b41a7529094424ec6ad;
    0x10b4e7f3ab5df003049514459b6e18eec46bb2213e8e131e170887b47ddcb96c;
    0x2a1982979c3ff7f43ddd543d891c2abddd80f804c077d775039aa3502e43adef;
    0x1c74ee64f15e1db6feddbead56d6d55dba431ebc396c9af95cad0f1315bd5c91;
    0x07533ec850ba7f98eab9303cace01b4b9e4f2e8b82708cfa9c2fe45a0ae146a0;
    0x21576b438e500449a151e4eeaf17b154285c68f42d42c1808a11abf3764c0750;
    0x2f17c0559b8fe79608ad5ca193d62f10bce8384c815f0906743d6930836d4a9e;
    0x2d477e3862d07708a79e8aae946170bc9775a4201318474ae665b0b1b7e2730e;
    0x162f5243967064c390e095577984f291afba2266c38f5abcd89be0f5b2747eab;
    0x2b4cb233ede9ba48264ecd2c8ae50d1ad7a8596a87f29f8a7777a70092393311;
    0x2c8fbcb2dd8573dc1dbaf8f4622854776db2eece6d85c4cf4254e7c35e03b07a;
    0x1d6f347725e4816af2ff453f0cd56b199e1b61e9f601e9ade5e88db870949da9;
    0x204b0c397f4ebe71ebc2d8b3df5b913df9e6ac02b68d31324cd49af5c4565529;
    0x0c4cb9dc3c4fd8174f1149b3c63c3c2f9ecb827cd7dc25534ff8fb75bc79c502;
    0x174ad61a1448c899a25416474f4930301e5c49475279e0639a616ddc45bc7b54;
    0x1a96177bcf4d8d89f759df4ec2f3cde2eaaa28c177cc0fa13a9816d49a38d2ef;
    0x066d04b24331d71cd0ef8054bc60c4ff05202c126a233c1a8242ace360b8a30a;
    0x2a4c4fc6ec0b0cf52195782871c6dd3b381cc65f72e02ad527037a62aa1bd804;
    0x13ab2d136ccf37d447e9f2e14a7cedc95e727f8446f6d9d7e55afc01219fd649;
    0x1121552fca26061619d24d843dc82769c1b04fcec26f55194c2e3e869acc6a9a;
    0x00ef653322b13d6c889bc81715c37d77a6cd267d595c4a8909a5546c7c97cff1;
    0x0e25483e45a665208b261d8ba74051e6400c776d652595d9845aca35d8a397d3;
    0x29f536dcb9dd7682245264659e15d88e395ac3d4dde92d8c46448db979eeba89;
    0x2a56ef9f2c53febadfda33575dbdbd885a124e2780bbea170e456baace0fa5be;
    0x1c8361c78eb5cf5decfb7a2d17b5c409f2ae2999a46762e8ee416240a8cb9af1;
    0x151aff5f38b20a0fc0473089aaf0206b83e8e68a764507bfd3d0ab4be74319c5;
    0x04c6187e41ed881dc1b239c88f7f9d43a9f52fc8c8b6cdd1e76e47615b51f100;
    0x13b37bd80f4d27fb10d84331f6fb6d534b81c61ed15776449e801b7ddc9c2967;
    0x01a5c536273c2d9df578bfbd32c17b7a2ce3664c2a52032c9321ceb1c4e8a8e4;
    0x2ab3561834ca73835ad05f5d7acb950b4a9a2c666b9726da832239065b7c3b02;
    0x1d4d8ec291e720db200fe6d686c0d613acaf6af4e95d3bf69f7ed516a597b646;
    0x041294d2cc484d228f5784fe7919fd2bb925351240a04b711514c9c80b65af1d;
    0x154ac98e01708c611c4fa715991f004898f57939d126e392042971dd90e81fc6;
    0x0b339d8acca7d4f83eedd84093aef51050b3684c88f8b0b04524563bc6ea4da4;
    0x0955e49e6610c94254a4f84cfbab344598f0e71eaff4a7dd81ed95b50839c82e;
    0x06746a6156eba54426b9e22206f15abca9a6f41e6f535c6f3525401ea0654626;
    0x0f18f5a0ecd1423c496f3820c549c27838e5790e2bd0a196ac917c7ff32077fb;
    0x04f6eeca1751f7308ac59eff5beb261e4bb563583ede7bc92a738223d6f76e13;
    0x2b56973364c4c4f5c1a3ec4da3cdce038811eb116fb3e45bc1768d26fc0b3758;
    0x123769dd49d5b054dcd76b89804b1bcb8e1392b385716a5d83feb65d437f29ef;
    0x2147b424fc48c80a88ee52b91169aacea989f6446471150994257b2fb01c63e9;
    0x0fdc1f58548b85701a6c5505ea332a29647e6f34ad4243c2ea54ad897cebe54d;
    0x12373a8251fea004df68abcf0f7786d4bceff28c5dbbe0c3944f685cc0a0b1f2;
    0x21e4f4ea5f35f85bad7ea52ff742c9e8a642756b6af44203dd8a1f35c1a90035;
    0x16243916d69d2ca3dfb4722224d4c462b57366492f45e90d8a81934f1bc3b147;
    0x1efbe46dd7a578b4f66f9adbc88b4378abc21566e1a0453ca13a4159cac04ac2;
    0x07ea5e8537cf5dd08886020e23a7f387d468d5525be66f853b672cc96a88969a;
    0x05a8c4f9968b8aa3b7b478a30f9a5b63650f19a75e7ce11ca9fe16c0b76c00bc;
    0x20f057712cc21654fbfe59bd345e8dac3f7818c701b9c7882d9d57b72a32e83f;
    0x04a12ededa9dfd689672f8c67fee31636dcd8e88d01d49019bd90b33eb33db69;
    0x27e88d8c15f37dcee44f1e5425a51decbd136ce5091a6767e49ec9544ccd101a;
    0x2feed17b84285ed9b8a5c8c5e95a41f66e096619a7703223176c41ee433de4d1;
    0x1ed7cc76edf45c7c404241420f729cf394e5942911312a0d6972b8bd53aff2b8;
    0x15742e99b9bfa323157ff8c586f5660eac6783476144cdcadf2874be45466b1a;
    0x1aac285387f65e82c895fc6887ddf40577107454c6ec0317284f033f27d0c785;
    0x25851c3c845d4790f9ddadbdb6057357832e2e7a49775f71ec75a96554d67c77;
    0x15a5821565cc2ec2ce78457db197edf353b7ebba2c5523370ddccc3d9f146a67;
    0x2411d57a4813b9980efa7e31a1db5966dcf64f36044277502f15485f28c71727;
    0x002e6f8d6520cd4713e335b8c0b6d2e647e9a98e12f4cd2558828b5ef6cb4c9b;
    0x2ff7bc8f4380cde997da00b616b0fcd1af8f0e91e2fe1ed7398834609e0315d2;
    0x00b9831b948525595ee02724471bcd182e9521f6b7bb68f1e93be4febb0d3cbe;
    0x0a2f53768b8ebf6a86913b0e57c04e011ca408648a4743a87d77adbf0c9c3512;
    0x00248156142fd0373a479f91ff239e960f599ff7e94be69b7f2a290305e1198d;
    0x171d5620b87bfb1328cf8c02ab3f0c9a397196aa6a542c2350eb512a2b2bcda9;
    0x170a4f55536f7dc970087c7c10d6fad760c952172dd54dd99d1045e4ec34a808;
    0x29aba33f799fe66c2ef3134aea04336ecc37e38c1cd211ba482eca17e2dbfae1;
    0x1e9bc179a4fdd758fdd1bb1945088d47e70d114a03f6a0e8b5ba650369e64973;
    0x1dd269799b660fad58f7f4892dfb0b5afeaad869a9c4b44f9c9e1c43bdaf8f09;
    0x22cdbc8b70117ad1401181d02e15459e7ccd426fe869c7c95d1dd2cb0f24af38;
    0x0ef042e454771c533a9f57a55c503fcefd3150f52ed94a7cd5ba93b9c7dacefd;
    0x11609e06ad6c8fe2f287f3036037e8851318e8b08a0359a03b304ffca62e8284;
    0x1166d9e554616dba9e753eea427c17b7fecd58c076dfe42708b08f5b783aa9af;
    0x2de52989431a859593413026354413db177fbf4cd2ac0b56f855a888357ee466;
    0x3006eb4ffc7a85819a6da492f3a8ac1df51aee5b17b8e89d74bf01cf5f71e9ad;
    0x2af41fbb61ba8a80fdcf6fff9e3f6f422993fe8f0a4639f962344c8225145086;
    0x119e684de476155fe5a6b41a8ebc85db8718ab27889e85e781b214bace4827c3;
    0x1835b786e2e8925e188bea59ae363537b51248c23828f047cff784b97b3fd800;
    0x28201a34c594dfa34d794996c6433a20d152bac2a7905c926c40e285ab32eeb6;
    0x083efd7a27d1751094e80fefaf78b000864c82eb571187724a761f88c22cc4e7;
    0x0b6f88a3577199526158e61ceea27be811c16df7774dd8519e079564f61fd13b;
    0x0ec868e6d15e51d9644f66e1d6471a94589511ca00d29e1014390e6ee4254f5b;
    0x2af33e3f866771271ac0c9b3ed2e1142ecd3e74b939cd40d00d937ab84c98591;
    0x0b520211f904b5e7d09b5d961c6ace7734568c547dd6858b364ce5e47951f178;
    0x0b2d722d0919a1aad8db58f10062a92ea0c56ac4270e822cca228620188a1d40;
    0x1f790d4d7f8cf094d980ceb37c2453e957b54a9991ca38bbe0061d1ed6e562d4;
    0x0171eb95dfbf7d1eaea97cd385f780150885c16235a2a6a8da92ceb01e504233;
    0x0c2d0e3b5fd57549329bf6885da66b9b790b40defd2c8650762305381b168873;
    0x1162fb28689c27154e5a8228b4e72b377cbcafa589e283c35d3803054407a18d;
    0x2f1459b65dee441b64ad386a91e8310f282c5a92a89e19921623ef8249711bc0;
    0x1e6ff3216b688c3d996d74367d5cd4c1bc489d46754eb712c243f70d1b53cfbb;
    0x01ca8be73832b8d0681487d27d157802d741a6f36cdc2a0576881f9326478875;
    0x1f7735706ffe9fc586f976d5bdf223dc680286080b10cea00b9b5de315f9650e;
    0x2522b60f4ea3307640a0c2dce041fba921ac10a3d5f096ef4745ca838285f019;
    0x23f0bee001b1029d5255075ddc957f833418cad4f52b6c3f8ce16c235572575b;
    0x2bc1ae8b8ddbb81fcaac2d44555ed5685d142633e9df905f66d9401093082d59;
    0x0f9406b8296564a37304507b8dba3ed162371273a07b1fc98011fcd6ad72205f;
    0x2360a8eb0cc7defa67b72998de90714e17e75b174a52ee4acb126c8cd995f0a8;
    0x15871a5cddead976804c803cbaef255eb4815a5e96df8b006dcbbc2767f88948;
    0x193a56766998ee9e0a8652dd2f3b1da0362f4f54f72379544f957ccdeefb420f;
    0x2a394a43934f86982f9be56ff4fab1703b2e63c8ad334834e4309805e777ae0f;
    0x1859954cfeb8695f3e8b635dcb345192892cd11223443ba7b4166e8876c0d142;
    0x04e1181763050e58013444dbcb99f1902b11bc25d90bbdca408d3819f4fed32b;
    0x0fdb253dee83869d40c335ea64de8c5bb10eb82db08b5e8b1f5e5552bfd05f23;
    0x058cbe8a9a5027bdaa4efb623adead6275f08686f1c08984a9d7c5bae9b4f1c0;
    0x1382edce9971e186497eadb1aeb1f52b23b4b83bef023ab0d15228b4cceca59a;
    0x03464990f045c6ee0819ca51fd11b0be7f61b8eb99f14b77e1e6634601d9e8b5;
    0x23f7bfc8720dc296fff33b41f98ff83c6fcab4605db2eb5aaa5bc137aeb70a58;
    0x0a59a158e3eec2117e6e94e7f0e9decf18c3ffd5e1531a9219636158bbaf62f2;
    0x06ec54c80381c052b58bf23b312ffd3ce2c4eba065420af8f4c23ed0075fd07b;
    0x118872dc832e0eb5476b56648e867ec8b09340f7a7bcb1b4962f0ff9ed1f9d01;
    0x13d69fa127d834165ad5c7cba7ad59ed52e0b0f0e42d7fea95e1906b520921b1;
    0x169a177f63ea681270b1c6877a73d21bde143942fb71dc55fd8a49f19f10c77b;
    0x04ef51591c6ead97ef42f287adce40d93abeb032b922f66ffb7e9a5a7450544d;
    0x256e175a1dc079390ecd7ca703fb2e3b19ec61805d4f03ced5f45ee6dd0f69ec;
    0x30102d28636abd5fe5f2af412ff6004f75cc360d3205dd2da002813d3e2ceeb2;
    0x10998e42dfcd3bbf1c0714bc73eb1bf40443a3fa99bef4a31fd31be182fcc792;
    0x193edd8e9fcf3d7625fa7d24b598a1d89f3362eaf4d582efecad76f879e36860;
    0x18168afd34f2d915d0368ce80b7b3347d1c7a561ce611425f2664d7aa51f0b5d;
    0x29383c01ebd3b6ab0c017656ebe658b6a328ec77bc33626e29e2e95b33ea6111;
    0x10646d2f2603de39a1f4ae5e7771a64a702db6e86fb76ab600bf573f9010c711;
    0x0beb5e07d1b27145f575f1395a55bf132f90c25b40da7b3864d0242dcb1117fb;
    0x16d685252078c133dc0d3ecad62b5c8830f95bb2e54b59abdffbf018d96fa336;
    0x0a6abd1d833938f33c74154e0404b4b40a555bbbec21ddfafd672dd62047f01a;
    0x1a679f5d36eb7b5c8ea12a4c2dedc8feb12dffeec450317270a6f19b34cf1860;
    0x0980fb233bd456c23974d50e0ebfde4726a423eada4e8f6ffbc7592e3f1b93d6;
    0x161b42232e61b84cbf1810af93a38fc0cece3d5628c9282003ebacb5c312c72b;
    0x0ada10a90c7f0520950f7d47a60d5e6a493f09787f1564e5d09203db47de1a0b;
    0x1a730d372310ba82320345a29ac4238ed3f07a8a2b4e121bb50ddb9af407f451;
    0x2c8120f268ef054f817064c369dda7ea908377feaba5c4dffbda10ef58e8c556;
    0x1c7c8824f758753fa57c00789c684217b930e95313bcb73e6e7b8649a4968f70;
    0x2cd9ed31f5f8691c8e39e4077a74faa0f400ad8b491eb3f7b47b27fa3fd1cf77;
    0x23ff4f9d46813457cf60d92f57618399a5e022ac321ca550854ae23918a22eea;
    0x09945a5d147a4f66ceece6405dddd9d0af5a2c5103529407dff1ea58f180426d;
    0x188d9c528025d4c2b67660c6b771b90f7c7da6eaa29d3f268a6dd223ec6fc630;
    0x3050e37996596b7f81f68311431d8734dba7d926d3633595e0c0d8ddf4f0f47f;
    0x15af1169396830a91600ca8102c35c426ceae5461e3f95d89d829518d30afd78;
    0x1da6d09885432ea9a06d9f37f873d985dae933e351466b2904284da3320d8acc;
    0x2796ea90d269af29f5f8acf33921124e4e4fad3dbe658945e546ee411ddaa9cb;
    0x202d7dd1da0f6b4b0325c8b3307742f01e15612ec8e9304a7cb0319e01d32d60;
    0x096d6790d05bb759156a952ba263d672a2d7f9c788f4c831a29dace4c0f8be5f;
    0x054efa1f65b0fce283808965275d877b438da23ce5b13e1963798cb1447d25a4;
    0x1b162f83d917e93edb3308c29802deb9d8aa690113b2e14864ccf6e18e4165f1;
    0x21e5241e12564dd6fd9f1cdd2a0de39eedfefc1466cc568ec5ceb745a0506edc;
    0x1cfb5662e8cf5ac9226a80ee17b36abecb73ab5f87e161927b4349e10e4bdf08;
    0x0f21177e302a771bbae6d8d1ecb373b62c99af346220ac0129c53f666eb24100;
    0x1671522374606992affb0dd7f71b12bec4236aede6290546bcef7e1f515c2320;
    0x0fa3ec5b9488259c2eb4cf24501bfad9be2ec9e42c5cc8ccd419d2a692cad870;
    0x193c0e04e0bd298357cb266c1506080ed36edce85c648cc085e8c57b1ab54bba;
    0x102adf8ef74735a27e9128306dcbc3c99f6f7291cd406578ce14ea2adaba68f8;
    0x0fe0af7858e49859e2a54d6f1ad945b1316aa24bfbdd23ae40a6d0cb70c3eab1;
    0x216f6717bbc7dedb08536a2220843f4e2da5f1daa9ebdefde8a5ea7344798d22;
    0x1da55cc900f0d21f4a3e694391918a1b3c23b2ac773c6b3ef88e2e4228325161 ].

Definition M : list (list Z) :=
  [ [ 0x109b7f411ba0e4c9b2b70caf5c36a7b194be7c11ad24378bfedb68592ba8118b;
      0x16ed41e13bb9c0c66ae119424fddbcbc9314dc9fdbdeea55d6c64543dc4903e0;
      0x2b90bba00fca0589f617e7dcbfe82e0df706ab640ceb247b791a93b74e36736d ];
    [ 0x2969f27eed31a480b9c36c764379dbca2cc8fdd1415c3dded62940bcde0bd771;
      0x2e2419f9ec02ec394c9871c832963dc1b89d743c8c7b964029b2311687b1fe23;
      0x101071f0032379b697315876690f053d148d4e109f5fb065c8aacc55a0f89bfa ];
    [ 0x143021ec686a3f330d5f9e654638065ce6cd79e28c5b3753326244ee65a1b1a7;
      0x176cc029695ad02582a70eff08a6fd99d057e12e58e7d7b6b16cdfabc8ee2911;
      0x19a3fc0a56702bf417ba7fee3802593fa644470307043f7773279cd71d25d5e0 ] ].

Definition F_add (a b : Z) : Z := (a + b) mod p.
Definition F_mul (a b : Z) : Z := (a * b) mod p.
Definition pow5 (a : Z) : Z := F_mul a (F_mul (F_mul a a) (F_mul a a)).

(** One round [r] on the state. *)
Definition round (state : list Z) (r : nat) : list Z :=
  let state := imap (fun i a => F_add a (C !!! (r * t + i)%nat)) state in
  let state :=
    if (r <? N_ROUNDS_F / 2)%nat || (N_ROUNDS_F / 2 + N_ROUNDS_P <=? r)%nat
    then map pow5 state
    else match state with
         | [] => []
         | a :: rest => pow5 a :: rest
         end in
  map (fun row =>
         fold_left (fun acc ma => F_add acc (F_mul (fst ma) (snd ma)))
           (zip row state) 0)
      M.

Definition poseidon (inputs : list Z) : Z :=
  let state := 0 :: map (fun a => a mod p) inputs in
  nth 0 (fold_left round (seq 0 (N_ROUNDS_F + N_ROUNDS_P)) state) 0.

(** The hash of a pair, as [generateMerkleProof] uses it. *)
Definition hash (a b : Z) : Z := poseidon [a; b].
End PoseidonReference.

(** The same permutation on the integers of the Bignums library, which are
    built from machine words; it serves to evaluate
    [PoseidonReference.hash]. *)
Module PoseidonBigZ.
#[global] Instance t_inhabited : Inhabited BigZ.BigZ.t :=
  populate (BigZ.BigZ.of_Z inhabitant).

Definition p : BigZ.BigZ.t := BigZ.BigZ.of_Z PoseidonReference.p.
Definition C : list BigZ.BigZ.t := map BigZ.BigZ.of_Z PoseidonReference.C.
Definition M : list (list BigZ.BigZ.t) :=
  map (map BigZ.BigZ.of_Z) PoseidonReference.M.

Definition F_add (a b : BigZ.BigZ.t) : BigZ.BigZ.t :=
  BigZ.BigZ.modulo (BigZ.BigZ.add a b) p.
Definition F_mul (a b : BigZ.BigZ.t) : BigZ.BigZ.t :=
  BigZ.BigZ.modulo (BigZ.BigZ.mul a b) p.
Definition pow5 (a : BigZ.BigZ.t) : BigZ.BigZ.t :=
  F_mul a (F_mul (F_mul a a) (F_mul a a)).

Definition round (state : list BigZ.BigZ.t) (r : nat) : list BigZ.BigZ.t :=
  let state :=
    imap (fun i a =>
            F_add a (C !!! (r * PoseidonReference.t + i)%nat))
      state in
  let state :=
    if (r <? PoseidonReference.N_ROUNDS_F / 2)%nat
       || (PoseidonReference.N_ROUNDS_F / 2 + PoseidonReference.N_ROUNDS_P
           <=? r)%nat
    then map pow5 state
    else match state with
         | [] => []
         | a :: rest => pow5 a :: rest
         end in
  map (fun row =>
         fold_left (fun acc ma => F_add acc (F_mul (fst ma) (snd ma)))
           (zip row state) BigZ.BigZ.zero)
      M.

Definition poseidon (inputs : list BigZ.BigZ.t) : BigZ.BigZ.t :=
  let state :=
    BigZ.BigZ.zero :: map (fun a => BigZ.BigZ.modulo a p) inputs in
  nth 0
    (fold_left round
       (seq 0 (PoseidonReference.N_ROUNDS_F + PoseidonReference.N_ROUNDS_P))
       state)
    BigZ.BigZ.zero.

Definition hash (a b : BigZ.BigZ.t) : BigZ.BigZ.t := poseidon [a; b].
End PoseidonBigZ.

(** ** Reading a proof back *)

(** The position a path stands for: [pathIndices[i]] is the bit of weight
    [2^i]. *)
Definition decodePath (path : list Z) : Z :=
  fold_right (fun bit rest => bit + 2 * rest) 0 path.

(** ** Instances used to exercise the definitions *)

(** A hash capability and a leaf hash on small numbers. *)
Definition toyHash (a b : Z) : Z := 3 * a + 5 * b + 1.
Definition toyLeaf (k : EdwardsPoint) : Z := ex k + 2 * ey k.

Definition threeKeys : list EdwardsPoint :=
  [mkEdwards 1 2; mkEdwards 3 4; mkEdwards 5 6].

(** A curve of the same shape as Baby Jubjub on a small field: the
    Montgomery curve [y^2 = x^3 + 8 x^2 + x] over the integers modulo 79, in
    short-Weierstrass form [y^2 = x^3 + 6 x + 6].  It has 88 = 8 * 11 points,
    so the cofactor is 8, the order field is the integers modulo 11, and
    [7 * 11 < 79 < 8 * 11]. *)
Module TinyCurve.
Definition p : Z := 79.
Definition n : Z := 11.
Definition a : Z := 6.
Definition b : Z := 6.
Definition A : Z := 8.

(** [None] is the point at infinity. *)
Definition point : Type := option (Z * Z).

Definition div (u v : Z) : Z := (u * Z.invmod v p) mod p.

Definition add (P Q : point) : point :=
  match P, Q with
  | None, _ => Q
  | _, None => P
  | Some (x1, y1), Some (x2, y2) =>
      if (x1 =? x2) && ((y1 + y2) mod p =? 0) then None
      else
        let l := if x1 =? x2 then div (3 * x1 * x1 + a) (2 * y1)
                 else div (y2 - y1) (x2 - x1) in
        let x3 := (l * l - x1 - x2) mod p in
        Some (x3, (l * (x1 - x3) - y1) mod p)
  end.

Definition mul (P : point) (k : Z) : point := Z.iter k (add P) None.

Definition pointFromX (x parity : Z) : answer point :=
  let x := x mod p in
  let y2 := (x * x * x + a * x + b) mod p in
  match filter (fun y => (y * y) mod p = y2) (seqZ 0 p) with
  | [] => Raise InvalidPoint
  | y :: _ =>
      if Bool.eqb (Z.odd y) (negb (parity =? 0)) then Ok (Some (x, y))
      else Ok (Some (x, (- y) mod p))
  end.

Definition g : point := Some (22, 11).

Definition curve : Elliptic.curve :=
  Elliptic.mk point pointFromX g mul add.

Definition fromEllipticPoint (P : point) : answer WeierstrassPoint :=
  match P with
  | None => Raise PointAtInfinity
  | Some (x, y) => Ok (mkWeierstrass x y)
  end.

(** Weierstrass to Montgomery ([x - A/3]) to twisted Edwards
    ([(x / y, (x - 1) / (x + 1))]); undefined where a denominator is 0. *)
Definition toEdwards (w : WeierstrassPoint) : answer EdwardsPoint :=
  let xm := (wx w - div A 3) mod p in
  let ym := wy w in
  if (ym =? 0) || ((xm + 1) mod p =? 0) then Raise ConversionError
  else Ok (mkEdwards (div xm ym) (div (xm - 1) (xm + 1))).

Definition babyjubjub : BabyJubJub :=
  mkBabyJubJub curve (ZqField.new p) (ZqField.new n) 8.

Definition WP : PointModel curve :=
  mkPointModel curve fromEllipticPoint toEdwards.

(** A signature made the standard way, with secret key 2 (public key
    [2 * g = (54, 30)]), nonce 6 ([6 * g = (69, 17)], so [r = 69 mod 11 = 3])
    and message hash 1 ([s = (1 + 3 * 2) / 6 mod 11 = 3]). *)
Definition honestSig : Signature := mkSignature 3 3.
Definition honestMsgHash : Z := 1.
Definition honestKey : WeierstrassPoint := mkWeierstrass 54 30.

(** A signature that does not fit its key and message hash. *)
Definition strangerSig : Signature := mkSignature 3 4.
Definition strangerMsgHash : Z := 7.
Definition strangerKey : WeierstrassPoint := mkWeierstrass 67 24.

(** A signature with the malformed scalar [r = 0]. *)
Definition zeroSig : Signature := mkSignature 0 6.
End TinyCurve.

(** ** Offline derivation of the curve constants ([bjj-mont-to-sw.sage]) *)

(** Sage's [GF(p)]: [Fp p a] is the element of the field that the integer
    [a] stands for, kept as its representative in [[0, p)]; every operation
    of the field reduces its result, and dividing by zero is an error. *)
Definition Fp (p a : Z) : Z := a mod p.

Definition GF_div (p u v : Z) : answer Z :=
  if v =? 0 then Raise DivisionByZero else Ok (Fp p (u * Z.invmod v p)).

Definition montgomery_to_weierstrass (A p : Z) : outcome (Z * Z) :=
  let A := Fp p A in
  let three := Fp p 3 in
  let two := Fp p 2 in
  let nine := Fp p 9 in
  let twenty_seven := Fp p 27 in
  a <- call (GF_div p (Fp p (three - Fp p (A ^ 2))) three) ;;
  b <- call (GF_div p (Fp p (Fp p (two * Fp p (A ^ 3)) - Fp p (nine * A)))
              twenty_seven) ;;
  Returns (a, b).

(** The Montgomery parameter and the prime of the script, and the two
    coefficients its closing comment records as printed. *)
Definition BabyJubjub_A : Z := 168698.
Definition BabyJubjub_p : Z :=
  21888242871839275222246405745257275088548364400416034343698204186575808495617.
Definition BabyJubjub_a : Z :=
  0x10216f7ba065e00de81ac1e7808072c9b8114d6d7de87adb16a0a72f1a91f6a0.
Definition BabyJubjub_b : Z :=
  0x23d885f647fed5743cad3d1ee4aba9c043b4ac0fc2766658a410efdeb21f706e.

(** ** Variations of the collaborators and further inputs *)

(** The same curve with another [pointFromX]. *)
Definition withPointFromX (curve : Elliptic.curve)
    (pointFromX : Z -> Z -> answer (Elliptic.point curve)) : Elliptic.curve :=
  Elliptic.mk (Elliptic.point curve) pointFromX (Elliptic.g curve)
    (Elliptic.mul curve) (Elliptic.add curve).

Definition withPointFromX_WP (curve : Elliptic.curve)
    (pointFromX : Z -> Z -> answer (Elliptic.point curve))
    (WP : PointModel curve) : PointModel (withPointFromX curve pointFromX) :=
  mkPointModel (withPointFromX curve pointFromX)
    (fromEllipticPoint WP) (toEdwards WP).

(** Two answers of a point recovery that succeed with the same point or
    both fail, with whatever errors. *)
Definition sameRecovery {A} (x y : answer A) : Prop :=
  match x, y with
  | Ok P, Ok Q => P = Q
  | Raise _, Raise _ => True
  | _, _ => False
  end.

Module TinyInputs.
(** 300 keys, more than the tree holds. *)
Definition manyKeys : list EdwardsPoint :=
  map (fun k => mkEdwards k (k + 1)) (seqZ 0 300).

(** An input whose thirteenth candidate, [i = 6] with parity 0, has its
    check point at infinity, while the fourteenth would satisfy the check. *)
Definition unluckySig : Signature := mkSignature 1 1.
Definition unluckyMsgHash : Z := 3.
Definition unluckyKey : WeierstrassPoint := mkWeierstrass 69 62.

(** An input whose match is at [i = 7], where the candidate wraps past the
    base-field prime: [3 + 7 * 11 = 80], reduced to 1 modulo 79, and 1 is
    not congruent to 3 modulo 11. *)
Definition wrappedSig : Signature := mkSignature 3 1.
Definition wrappedMsgHash : Z := 1.
Definition wrappedKey : WeierstrassPoint := mkWeierstrass 75 32.

(** [TinyCurve.pointFromX] failing with another error kind. *)
Definition pointFromX' (x parity : Z) : answer TinyCurve.point :=
  match TinyCurve.pointFromX x parity with
  | Ok P => Ok P
  | Raise _ => Raise 42
  end.
End TinyInputs.

(** * Properties *)

(** ** The machine-word permutation computes the reference one *)

Lemma PoseidonBigZ_p : BigZ.BigZ.to_Z PoseidonBigZ.p = PoseidonReference.p.
Proof. apply BigZ.BigZ.spec_of_Z. Qed.

Lemma PoseidonBigZ_F_add a b :
  BigZ.BigZ.to_Z (PoseidonBigZ.F_add a b)
  = PoseidonReference.F_add (BigZ.BigZ.to_Z a) (BigZ.BigZ.to_Z b).
Proof.
  unfold PoseidonBigZ.F_add, PoseidonReference.F_add.
  by rewrite BigZ.BigZ.spec_modulo, BigZ.BigZ.spec_add, PoseidonBigZ_p.
Qed.

Lemma PoseidonBigZ_F_mul a b :
  BigZ.BigZ.to_Z (PoseidonBigZ.F_mul a b)
  = PoseidonReference.F_mul (BigZ.BigZ.to_Z a) (BigZ.BigZ.to_Z b).
Proof.
  unfold PoseidonBigZ.F_mul, PoseidonReference.F_mul.
  by rewrite BigZ.BigZ.spec_modulo, BigZ.BigZ.spec_mul, PoseidonBigZ_p.
Qed.

Lemma PoseidonBigZ_pow5 a :
  BigZ.BigZ.to_Z (PoseidonBigZ.pow5 a)
  = PoseidonReference.pow5 (BigZ.BigZ.to_Z a).
Proof.
  unfold PoseidonBigZ.pow5, PoseidonReference.pow5.
  by rewrite !PoseidonBigZ_F_mul.
Qed.

Lemma PoseidonBigZ_C k :
  BigZ.BigZ.to_Z (PoseidonBigZ.C !!! k) = PoseidonReference.C !!! k.
Proof.
  unfold PoseidonBigZ.C. rewrite !list_lookup_total_alt.
  change (@map) with (@fmap list _). rewrite list_lookup_fmap.
  destruct (PoseidonReference.C !! k); apply BigZ.BigZ.spec_of_Z.
Qed.

Lemma PoseidonBigZ_row row state acc :
  BigZ.BigZ.to_Z
    (fold_left
       (fun acc ma =>
          PoseidonBigZ.F_add acc (PoseidonBigZ.F_mul (fst ma) (snd ma)))
       (zip (map BigZ.BigZ.of_Z row) state) acc)
  = fold_left
      (fun acc ma =>
         PoseidonReference.F_add acc
           (PoseidonReference.F_mul (fst ma) (snd ma)))
      (zip row (map BigZ.BigZ.to_Z state)) (BigZ.BigZ.to_Z acc).
Proof.
  revert state acc. induction row as [|m row IH]; intros [|a state] acc;
    try done.
  cbn [map zip zip_with fold_left fst snd]. rewrite IH.
  by rewrite PoseidonBigZ_F_add, PoseidonBigZ_F_mul, BigZ.BigZ.spec_of_Z.
Qed.

Lemma PoseidonBigZ_round state r :
  map BigZ.BigZ.to_Z (PoseidonBigZ.round state r)
  = PoseidonReference.round (map BigZ.BigZ.to_Z state) r.
Proof.
  unfold PoseidonBigZ.round, PoseidonReference.round. cbv zeta.
  set (added := imap _ state).
  assert (Hadded :
    map BigZ.BigZ.to_Z added
    = imap (fun i a =>
              PoseidonReference.F_add a
                (PoseidonReference.C !!! (r * PoseidonReference.t + i)%nat))
        (map BigZ.BigZ.to_Z state)).
  { subst added. change (@map) with (@fmap list _).
    rewrite fmap_imap, imap_fmap. apply imap_ext. intros i a _. simpl.
    by rewrite PoseidonBigZ_F_add, PoseidonBigZ_C. }
  rewrite <- Hadded. clear Hadded. generalize added. clear added.
  intros added.
  set (full := (_ || _)).
  set (boxed := if full then map PoseidonBigZ.pow5 added else _).
  assert (Hboxed :
    map BigZ.BigZ.to_Z boxed
    = if full then map PoseidonReference.pow5 (map BigZ.BigZ.to_Z added)
      else match map BigZ.BigZ.to_Z added with
           | [] => []
           | a :: rest => PoseidonReference.pow5 a :: rest
           end).
  { subst boxed. destruct full.
    - rewrite !map_map. apply map_ext. intros a. apply PoseidonBigZ_pow5.
    - destruct added as [|a rest]; [done|].
      cbn [map]. by rewrite PoseidonBigZ_pow5. }
  rewrite <- Hboxed. clear Hboxed. generalize boxed. clear boxed.
  intros boxed. unfold PoseidonBigZ.M.
  rewrite !map_map. apply map_ext. intros row.
  by rewrite PoseidonBigZ_row, BigZ.BigZ.spec_0.
Qed.

Lemma PoseidonBigZ_rounds rounds state :
  map BigZ.BigZ.to_Z (fold_left PoseidonBigZ.round rounds state)
  = fold_left PoseidonReference.round rounds (map BigZ.BigZ.to_Z state).
Proof.
  revert state. induction rounds as [|r rounds IH]; intros state; [done|].
  cbn [fold_left]. by rewrite IH, PoseidonBigZ_round.
Qed.

(** The reference hash of a pair is the value the machine-word permutation
    computes. *)
Lemma PoseidonBigZ_hash a b :
  PoseidonReference.hash a b
  = BigZ.BigZ.to_Z
      (PoseidonBigZ.hash (BigZ.BigZ.of_Z a) (BigZ.BigZ.of_Z b)).
Proof.
  unfold PoseidonBigZ.hash, PoseidonBigZ.poseidon, PoseidonReference.hash,
    PoseidonReference.poseidon. cbv zeta.
  rewrite <- (map_nth BigZ.BigZ.to_Z), PoseidonBigZ_rounds.
  cbn [map].
  by rewrite !BigZ.BigZ.spec_modulo, !BigZ.BigZ.spec_of_Z, PoseidonBigZ_p,
    BigZ.BigZ.spec_0.
Qed.

(** ** MerkleAccumulator *)

Section MerkleProperties.

Variable poseidon : Z -> Z -> Z.
Variable hashEdwardsPublicKey : EdwardsPoint -> Z.

(** Induction over a layer two nodes at a time, as the inner loop reads it. *)
Lemma layer_pairs_ind (P : list Z -> Prop) :
  P [] ->
  (forall node, P [node]) ->
  (forall node secondNode rest, P rest -> P (node :: secondNode :: rest)) ->
  forall layer, P layer.
Proof.
  intros Hnil Hone Hpair.
  assert (Hboth : forall layer, P layer /\ forall node, P (node :: layer)).
  { induction layer as [|x layer [IH1 IH2]]; split; auto. }
  intros layer. apply Hboth.
Qed.

(** The inner loop by index: node [k] of the next layer hashes nodes [2k]
    and [2k + 1] of the previous one, the level's zero standing in for a
    missing [2k + 1]. *)
Lemma buildNextLayer_lookup zero layer :
  forall k node,
    layer !! (2 * k)%nat = Some node ->
    buildNextLayer poseidon zero layer !! k
    = Some (poseidon node (default zero (layer !! S (2 * k)))).
Proof.
  induction layer as [|a|a b rest IH] using layer_pairs_ind;
    intros k node Hk.
  - discriminate.
  - destruct k as [|k]; simpl in *.
    + by inversion Hk.
    + replace (k + S (k + 0))%nat with (S (2 * k)) in Hk by lia.
      discriminate.
  - destruct k as [|k].
    + simpl in *. by inversion Hk.
    + replace (2 * S k)%nat with (S (S (2 * k))) in * by lia.
      simpl in Hk. change (buildNextLayer poseidon zero (a :: b :: rest))
        with (poseidon a b :: buildNextLayer poseidon zero rest).
      cbn [lookup list_lookup]. by apply IH.
Qed.

Lemma js_get_Some {A} (a : list A) (k : Z) (x : A) :
  js_get a k = Some x <-> 0 <= k /\ a !! Z.to_nat k = Some x.
Proof.
  unfold js_get. destruct (Z.ltb_spec k 0); split.
  - discriminate.
  - intros [? _]. lia.
  - auto.
  - intros [_ ?]. auto.
Qed.

Lemma js_get_in_bounds {A} (a : list A) (k : Z) (x : A) :
  js_get a k = Some x -> 0 <= k < Z.of_nat (length a).
Proof.
  intros [Hk Hx]%js_get_Some. apply lookup_lt_Some in Hx. lia.
Qed.

(** One level of the outer loop on a path node that is really in the
    layer: the recorded bit is 0 or 1, the recorded sibling is present, and
    the node at the halved index of the next layer is the hash of the pair
    in the order the bit says. *)
Lemma parent_of_node zero layer index node :
  js_get layer index = Some node ->
  let bit := Z.rem index 2 in
  let siblingIndex := if bit =? 0 then index + 1 else index - 1 in
  let sibling :=
    if siblingIndex =? Z.of_nat (length layer) then Some zero
    else js_get layer siblingIndex in
  exists sib,
    sibling = Some sib /\
    ((bit = 0 /\
      js_get (buildNextLayer poseidon zero layer) (index / 2)
      = Some (poseidon node sib)) \/
     (bit = 1 /\
      js_get (buildNextLayer poseidon zero layer) (index / 2)
      = Some (poseidon sib node))).
Proof.
  intros Hnode. pose proof (js_get_in_bounds _ _ _ Hnode) as Hb.
  apply js_get_Some in Hnode as [Hpos Hnode].
  intros bit siblingIndex sibling. subst bit siblingIndex sibling.
  rewrite Z.rem_mod_nonneg by lia.
  assert (Hhalf : 0 <= index / 2) by (apply Z.div_pos; lia).
  assert (Hcase : exists k, Z.to_nat (index / 2) = k /\
            (index = Z.of_nat (2 * k) \/ index = Z.of_nat (S (2 * k)))).
  { exists (Z.to_nat (index / 2)). split; [done|].
    rewrite !Nat2Z.inj_succ, !Nat2Z.inj_mul, Z2Nat.id by done.
    change (Z.of_nat 2) with 2.
    pose proof (Z.div_mod index 2 ltac:(lia)).
    pose proof (Z.mod_pos_bound index 2 ltac:(lia)). lia. }
  destruct Hcase as (k & Hk & [-> | ->]).
  - (* the path node is a left child *)
    rewrite Nat2Z.id in Hnode.
    pose proof (buildNextLayer_lookup zero layer k node Hnode) as Hnext.
    replace (Z.of_nat (2 * k) mod 2) with 0
      by (clear; Z.div_mod_to_equations; lia).
    cbn [Z.eqb].
    destruct (Z.eqb_spec (Z.of_nat (2 * k) + 1) (Z.of_nat (length layer)))
      as [Hlast | Hmore].
    + exists zero. split; [done|]. left. split; [done|].
      apply js_get_Some. split; [done|]. rewrite Hk, Hnext.
      rewrite (lookup_ge_None_2 layer (S (2 * k))) by lia. done.
    + destruct (lookup_lt_is_Some_2 layer (S (2 * k)) ltac:(lia))
        as [sib Hsib].
      exists sib. split.
      * apply js_get_Some. split; [lia|].
        replace (Z.to_nat (Z.of_nat (2 * k) + 1)) with (S (2 * k)) by lia.
        done.
      * left. split; [done|]. apply js_get_Some. split; [done|].
        rewrite Hk, Hnext, Hsib. done.
  - (* the path node is a right child *)
    rewrite Nat2Z.id in Hnode.
    destruct (lookup_lt_is_Some_2 layer (2 * k) ltac:(lia)) as [sib Hsib].
    pose proof (buildNextLayer_lookup zero layer k sib Hsib) as Hnext.
    replace (Z.of_nat (S (2 * k)) mod 2) with 1
      by (clear; Z.div_mod_to_equations; lia).
    cbn [Z.eqb].
    destruct (Z.eqb_spec (Z.of_nat (S (2 * k)) - 1) (Z.of_nat (length layer)))
      as [Hlast | Hmore]; [lia|].
    exists sib. split.
    + apply js_get_Some. split; [lia|].
      replace (Z.to_nat (Z.of_nat (S (2 * k)) - 1)) with (2 * k)%nat by lia.
      done.
    + right. split; [done|]. apply js_get_Some. split; [done|].
      rewrite Hk, Hnext, Hnode. done.
Qed.

(** The accumulators only grow: the proof of [levels] extends the path and
    the siblings it was given by one entry per level. *)
Lemma levels_lengths n : forall i index layer path sibs,
  length (pathIndices (levels poseidon n i index layer path sibs))
  = (length path + n)%nat /\
  length (siblings (levels poseidon n i index layer path sibs))
  = (length sibs + n)%nat.
Proof.
  induction n as [|n IH]; intros i index layer path sibs.
  - simpl. lia.
  - cbn [levels]. cbv zeta.
    specialize (IH (S i) (index / 2)
      (buildNextLayer poseidon (ZEROS !!! i) layer)).
    match goal with
    | |- context [levels poseidon n _ _ _ ?p ?q] => destruct (IH p q) as [-> ->]
    end.
    rewrite !length_app. simpl. lia.
Qed.

(** The layers, hence the root, do not depend on the index asked for. *)
Lemma levels_root_index n : forall i index index' layer path path' sibs sibs',
  root (levels poseidon n i index layer path sibs)
  = root (levels poseidon n i index' layer path' sibs').
Proof.
  induction n as [|n IH]; intros; [done|].
  cbn [levels]. cbv zeta. apply IH.
Qed.

(** The loop invariant behind proof validity: from a node that is in the
    current layer and [n] levels below the top, the entries recorded by the
    remaining levels fold back to the root. *)
Lemma levels_recompute n : forall i index layer path sibs node,
  index < 2 ^ Z.of_nat n ->
  js_get layer index = Some node ->
  exists path' sibs' rt,
    levels poseidon n i index layer path sibs
    = mkMerkleProof (Some rt) (path ++ path') (sibs ++ sibs') /\
    recomputeRoot poseidon node path' sibs' = Some rt.
Proof.
  induction n as [|n IH]; intros i index layer path sibs node Hlt Hnode.
  - pose proof (js_get_in_bounds _ _ _ Hnode).
    assert (index = 0) as -> by (simpl in Hlt; lia).
    exists [], [], node. rewrite !app_nil_r. simpl. by rewrite Hnode.
  - pose proof (js_get_in_bounds _ _ _ Hnode) as Hb.
    destruct (parent_of_node (ZEROS !!! i) layer index node Hnode)
      as (sib & Hsib & Hparent).
    assert (Hhalf : index / 2 < 2 ^ Z.of_nat n).
    { rewrite Nat2Z.inj_succ, Z.pow_succ_r in Hlt by lia.
      apply Z.div_lt_upper_bound; lia. }
    cbn [levels]. cbv zeta. rewrite Hsib.
    destruct Hparent as [[Hbit Hnext] | [Hbit Hnext]];
      destruct (IH (S i) (index / 2)
                  (buildNextLayer poseidon (ZEROS !!! i) layer)
                  (path ++ [Z.rem index 2]) (sibs ++ [Some sib]) _
                  Hhalf Hnext) as (path' & sibs' & rt & -> & Hrec);
      exists (Z.rem index 2 :: path'), (Some sib :: sibs'), rt;
      rewrite <- !app_assoc; (split; [done|]);
      rewrite Hbit; exact Hrec.
Qed.

(** With index -1 the loop never reaches the layers: the index stays -1,
    every path entry is -1 and every sibling read is out of bounds. *)
Lemma levels_minus_one n : forall i layer path sibs,
  pathIndices (levels poseidon n i (-1) layer path sibs)
  = path ++ repeat (-1) n /\
  siblings (levels poseidon n i (-1) layer path sibs)
  = sibs ++ repeat None n.
Proof.
  induction n as [|n IH]; intros i layer path sibs.
  - simpl. by rewrite !app_nil_r.
  - cbn [levels]. cbv zeta.
    change (Z.rem (-1) 2) with (-1). change (-1 / 2) with (-1).
    change (-1 =? 0) with false. cbv iota.
    replace (-1 - 1 =? Z.of_nat (length layer)) with false
      by (symmetry; apply Z.eqb_neq; lia).
    change (js_get layer (-1 - 1)) with (@None Z).
    destruct (IH (S i) (buildNextLayer poseidon (ZEROS !!! i) layer)
                (path ++ [-1]) (sibs ++ [None])) as [-> ->].
    rewrite <- !app_assoc. done.
Qed.

Lemma root_generateMerkleProof pubKeys index index' proof proof' :
  generateMerkleProof poseidon hashEdwardsPublicKey pubKeys index
  = Returns proof ->
  generateMerkleProof poseidon hashEdwardsPublicKey pubKeys index'
  = Returns proof' ->
  root proof = root proof'.
Proof.
  unfold generateMerkleProof. intros H H'.
  apply (f_equal (fun o => match o with
                           | Returns pf => root pf
                           | Throws _ => None
                           end)) in H, H'.
  cbv beta iota in H, H'. rewrite <- H, <- H'. apply levels_root_index.
Qed.

(** C1 (proof validity).  For a key list of 1 to 256 keys and an index
    inside it, [generateMerkleProof] returns a proof with 8 path entries and
    8 siblings such that folding the siblings from the hashed leaf at that
    index upwards, running value on the left for path bit 0 and on the right
    for path bit 1, gives exactly the returned root. *)
Theorem generateMerkleProof_valid pubKeys index :
  (1 <= length pubKeys <= 256)%nat ->
  0 <= index < Z.of_nat (length pubKeys) ->
  exists proof leaf rt,
    generateMerkleProof poseidon hashEdwardsPublicKey pubKeys index
    = Returns proof /\
    js_get (map hashEdwardsPublicKey pubKeys) index = Some leaf /\
    length (pathIndices proof) = 8%nat /\
    length (siblings proof) = 8%nat /\
    root proof = Some rt /\
    recomputeRoot poseidon leaf (pathIndices proof) (siblings proof)
    = Some rt.
Proof.
  intros Hsize Hindex.
  destruct (lookup_lt_is_Some_2 (map hashEdwardsPublicKey pubKeys)
              (Z.to_nat index)) as [leaf Hleaf].
  { rewrite length_map. lia. }
  assert (Hget : js_get (map hashEdwardsPublicKey pubKeys) index = Some leaf).
  { apply js_get_Some. split; [lia | done]. }
  destruct (levels_recompute 8 0 index
              (map hashEdwardsPublicKey pubKeys) [] [] leaf) as
    (path & sibs & rt & Hproof & Hrec); [simpl; lia | exact Hget |].
  pose proof (levels_lengths 8 0 index
                (map hashEdwardsPublicKey pubKeys) [] []) as [Hlp Hls].
  exists (mkMerkleProof (Some rt) path sibs), leaf, rt.
  unfold generateMerkleProof, TREE_DEPTH. rewrite Hproof in *.
  simpl in Hlp, Hls. by repeat split.
Qed.

(** C5, as amended.  The source does not validate the index: for every key
    list, asking for index [len(keys)] or for index -1 raises nothing and
    returns a complete proof, with 8 path entries, 8 siblings and the root of
    the key list; with index -1 every path entry is -1 and every sibling is
    absent. *)
Theorem generateMerkleProof_out_of_range_returns pubKeys :
  (exists proof,
     generateMerkleProof poseidon hashEdwardsPublicKey pubKeys
       (Z.of_nat (length pubKeys)) = Returns proof /\
     length (pathIndices proof) = 8%nat /\
     length (siblings proof) = 8%nat /\
     computeMerkleRoot poseidon hashEdwardsPublicKey pubKeys
     = Returns (root proof)) /\
  (exists proof,
     generateMerkleProof poseidon hashEdwardsPublicKey pubKeys (-1)
     = Returns proof /\
     pathIndices proof = repeat (-1) 8 /\
     siblings proof = repeat None 8 /\
     computeMerkleRoot poseidon hashEdwardsPublicKey pubKeys
     = Returns (root proof)).
Proof.
  split; eexists; (split; [reflexivity|]).
  - pose proof (levels_lengths 8 0 (Z.of_nat (length pubKeys))
                  (map hashEdwardsPublicKey pubKeys) [] []) as [Hlp Hls].
    unfold TREE_DEPTH. split; [exact Hlp|]. split; [exact Hls|].
    unfold computeMerkleRoot, generateMerkleProof, bind, TREE_DEPTH.
    apply (f_equal Returns), levels_root_index.
  - pose proof (levels_minus_one 8 0
                  (map hashEdwardsPublicKey pubKeys) [] []) as [Hp Hs].
    unfold TREE_DEPTH. split; [exact Hp|]. split; [exact Hs|].
    unfold computeMerkleRoot, generateMerkleProof, bind, TREE_DEPTH.
    apply (f_equal Returns), levels_root_index.
Qed.

(** C6 (index invariance).  For every key list, the proofs for any two
    distinct valid indices carry the same root, and [computeMerkleRoot] is
    the root of the proof for index 0, for every key list, the empty and the
    single-key list included. *)
Theorem root_index_invariant pubKeys :
  (forall i j,
     0 <= i < Z.of_nat (length pubKeys) ->
     0 <= j < Z.of_nat (length pubKeys) ->
     i <> j ->
     exists proof_i proof_j,
       generateMerkleProof poseidon hashEdwardsPublicKey pubKeys i
       = Returns proof_i /\
       generateMerkleProof poseidon hashEdwardsPublicKey pubKeys j
       = Returns proof_j /\
       root proof_i = root proof_j) /\
  (exists proof_0,
     generateMerkleProof poseidon hashEdwardsPublicKey pubKeys 0
     = Returns proof_0 /\
     computeMerkleRoot poseidon hashEdwardsPublicKey pubKeys
     = Returns (root proof_0)).
Proof.
  split.
  - intros i j _ _ _. do 2 eexists.
    split; [reflexivity|]. split; [reflexivity|].
    by apply (root_generateMerkleProof pubKeys i j).
  - eexists. split; reflexivity.
Qed.

(** C7 (zero constants).  The table starts with the additive identity and
    each later entry is the hash, by the default Poseidon, of the pair made
    of the entry before it taken twice; and for a key list of size 1 at
    index 0, with whatever hash capability, the siblings of the returned
    proof are [ZEROS[0..7]] in order and every path entry is 0. *)
Theorem zeros_chain_and_single_key_proof key :
  zeros_chain PoseidonReference.hash /\
  length ZEROS = 8%nat /\
  exists proof,
    generateMerkleProof poseidon hashEdwardsPublicKey [key] 0
    = Returns proof /\
    siblings proof = map Some ZEROS /\
    pathIndices proof = [0; 0; 0; 0; 0; 0; 0; 0].
Proof.
  split.
  { split; [reflexivity|]. intros i Hi. rewrite PoseidonBigZ_hash.
    assert (Hcases : (i = 1 \/ i = 2 \/ i = 3 \/ i = 4 \/ i = 5 \/ i = 6 \/
                      i = 7)%nat) by lia.
    repeat destruct Hcases as [-> | Hcases]; try subst i;
      vm_compute; reflexivity. }
  split; [reflexivity|].
  eexists. split; [reflexivity|]. split; reflexivity.
Qed.

(** C8 (fixed proof size).  Whenever [generateMerkleProof] returns, both
    arrays of the proof have exactly 8 entries, whatever the number of
    keys. *)
Theorem proof_arrays_have_tree_depth pubKeys index proof :
  generateMerkleProof poseidon hashEdwardsPublicKey pubKeys index
  = Returns proof ->
  length (pathIndices proof) = 8%nat /\ length (siblings proof) = 8%nat.
Proof.
  unfold generateMerkleProof. intros H.
  apply (f_equal (fun o => match o with
                           | Returns pf =>
                               (length (pathIndices pf),
                                length (siblings pf))
                           | Throws _ => (0, 0)%nat
                           end)) in H.
  cbv beta iota in H.
  destruct (levels_lengths TREE_DEPTH 0 index
              (map hashEdwardsPublicKey pubKeys) [] []) as [Hp Hs].
  rewrite Hp, Hs in H. simpl in H. by inversion H.
Qed.

(** C10 (empty key list).  With no keys every layer is empty, and the call
    for index 0 returns, without raising, a proof whose root and whose 8
    siblings are all absent. *)
Theorem empty_key_list_has_no_root :
  (forall zero, buildNextLayer poseidon zero [] = []) /\
  generateMerkleProof poseidon hashEdwardsPublicKey [] 0
  = Returns (mkMerkleProof None [0; 0; 0; 0; 0; 0; 0; 0]
               [None; None; None; None; None; None; None; None]).
Proof. split; reflexivity. Qed.

End MerkleProperties.

Lemma generateMerkleProof_valid_witness :
  ((1 <= length threeKeys <= 256)%nat /\
   0 <= 2 < Z.of_nat (length threeKeys)) /\
  exists proof leaf rt,
    generateMerkleProof toyHash toyLeaf threeKeys 2 = Returns proof /\
    js_get (map toyLeaf threeKeys) 2 = Some leaf /\
    length (pathIndices proof) = 8%nat /\
    length (siblings proof) = 8%nat /\
    root proof = Some rt /\
    recomputeRoot toyHash leaf (pathIndices proof) (siblings proof) = Some rt.
Proof.
  assert (H1 : (1 <= length threeKeys <= 256)%nat) by (simpl; lia).
  assert (H2 : 0 <= 2 < Z.of_nat (length threeKeys)) by (simpl; lia).
  exact (conj (conj H1 H2)
           (generateMerkleProof_valid toyHash toyLeaf threeKeys 2 H1 H2)).
Defined.

(** C5, as stated, fails: with three keys, neither index 3 nor index -1
    raises [IndexOutOfRange]. *)
Lemma generateMerkleProof_no_IndexOutOfRange :
  ~ (generateMerkleProof toyHash toyLeaf threeKeys
       (Z.of_nat (length threeKeys)) = Throws IndexOutOfRange /\
     generateMerkleProof toyHash toyLeaf threeKeys (-1)
     = Throws IndexOutOfRange).
Proof. intros [H _]. discriminate H. Qed.

Lemma root_index_invariant_witness :
  (0 <= 0 < Z.of_nat (length threeKeys) /\
   0 <= 2 < Z.of_nat (length threeKeys) /\ 0 <> 2) /\
  exists proof_i proof_j,
    generateMerkleProof toyHash toyLeaf threeKeys 0 = Returns proof_i /\
    generateMerkleProof toyHash toyLeaf threeKeys 2 = Returns proof_j /\
    root proof_i = root proof_j.
Proof.
  assert (H1 : 0 <= 0 < Z.of_nat (length threeKeys)) by (simpl; lia).
  assert (H2 : 0 <= 2 < Z.of_nat (length threeKeys)) by (simpl; lia).
  assert (H3 : 0 <> 2) by lia.
  exact (conj (conj H1 (conj H2 H3))
           (proj1 (root_index_invariant toyHash toyLeaf threeKeys)
              0 2 H1 H2 H3)).
Defined.

Lemma proof_arrays_have_tree_depth_witness :
  generateMerkleProof toyHash toyLeaf threeKeys 2
  = Returns (levels toyHash 8 0 2 (map toyLeaf threeKeys) [] []) /\
  length (pathIndices (levels toyHash 8 0 2 (map toyLeaf threeKeys) [] []))
  = 8%nat /\
  length (siblings (levels toyHash 8 0 2 (map toyLeaf threeKeys) [] []))
  = 8%nat.
Proof.
  assert (H : generateMerkleProof toyHash toyLeaf threeKeys 2
              = Returns (levels toyHash 8 0 2 (map toyLeaf threeKeys) [] []))
    by reflexivity.
  exact (conj H (proof_arrays_have_tree_depth toyHash toyLeaf threeKeys 2 _ H)).
Defined.

(** ** Loops *)

Lemma forEach_app {A B} (xs ys : list A) (body : A -> outcome (option B)) :
  forEach (xs ++ ys) body
  = match forEach xs body with
    | Returns None => forEach ys body
    | decided => decided
    end.
Proof.
  induction xs as [|x xs IH]; simpl.
  - by destruct (forEach ys body) as [[?|]|].
  - destruct (body x) as [[?|]|]; auto.
Qed.

(** Two nested loops visit the pairs in lexicographic order. *)
Lemma forEach_nested {A B C} (xs : list A) (inner : list C)
    (body : A -> C -> outcome (option B)) :
  forEach xs (fun x => forEach inner (body x))
  = forEach (flat_map (fun x => map (pair x) inner) xs)
      (fun c => body (fst c) (snd c)).
Proof.
  induction xs as [|x xs IH]; [done|].
  change (forEach (flat_map (fun x => map (pair x) inner) (x :: xs))
            (fun c => body (fst c) (snd c)))
    with (forEach (map (pair x) inner
                   ++ flat_map (fun x => map (pair x) inner) xs)
            (fun c => body (fst c) (snd c))).
  rewrite forEach_app, <- IH. cbn [forEach].
  assert (Hinner : forEach (map (pair x) inner)
                     (fun c => body (fst c) (snd c))
                   = forEach inner (body x)).
  { clear. induction inner as [|c inner IH]; [done|].
    simpl. by rewrite IH. }
  rewrite Hinner. by destruct (forEach inner (body x)) as [[?|]|].
Qed.

(** The loop runs off its end exactly when every iteration falls through. *)
Lemma forEach_None {A B} (xs : list A) (body : A -> outcome (option B)) :
  forEach xs body = Returns None
  <-> forall k x, xs !! k = Some x -> body x = Returns None.
Proof.
  induction xs as [|x xs IH]; simpl.
  - split; [intros _ k x Hk; discriminate | done].
  - split.
    + intros H [|k] y Hk; simpl in Hk.
      * injection Hk as <-. by destruct (body x) as [[?|]|].
      * destruct (body x) as [[?|]|]; try discriminate.
        by apply (proj1 IH H k).
    + intros H. rewrite (H 0%nat x eq_refl). apply IH.
      intros k y Hk. by apply (H (S k)).
Qed.

(** The loop is left, by [return] or by [throw], at the first iteration
    that does not fall through. *)
Lemma forEach_decided {A B} (xs : list A) (body : A -> outcome (option B))
    (res : outcome (option B)) :
  res <> Returns None ->
  forEach xs body = res
  <-> exists k x, xs !! k = Some x /\ body x = res /\
        forall j y, (j < k)%nat -> xs !! j = Some y -> body y = Returns None.
Proof.
  intros Hres. induction xs as [|x xs IH]; simpl.
  - split; [by intros <- | by intros (k & y & Hk & _)].
  - split.
    + intros H. destruct (body x) as [[v|]|e] eqn:Hx.
      * exists 0%nat, x. repeat split; [congruence | intros; lia].
      * destruct (proj1 IH H) as (k & y & Hk & Hy & Hbefore).
        exists (S k), y. repeat split; [done.. |].
        intros [|j] z Hj Hz; simpl in Hz.
        -- by injection Hz as <-.
        -- apply (Hbefore j); [lia | done].
      * exists 0%nat, x. repeat split; [congruence | intros; lia].
    + intros ([|k] & y & Hk & Hy & Hbefore); simpl in Hk.
      * injection Hk as <-. rewrite Hy.
        destruct res as [[?|]|]; done.
      * rewrite (Hbefore 0%nat x ltac:(lia) eq_refl). apply IH.
        exists k, y. repeat split; [done.. |].
        intros j z Hj Hz. apply (Hbefore (S j)); [lia | done].
Qed.

(** Entry [2k] and entry [2k + 1] of a list made of pairs. *)
Lemma lookup_flat_map_pairs {A B} (f g : A -> B) (l : list A) : forall k,
  flat_map (fun x => [f x; g x]) l !! (2 * k)%nat = f <$> l !! k /\
  flat_map (fun x => [f x; g x]) l !! S (2 * k) = g <$> l !! k.
Proof.
  induction l as [|x l IH]; intros k; [done|].
  destruct k as [|k]; [done|].
  replace (2 * S k)%nat with (S (S (2 * k))) by lia.
  exact (IH k).
Qed.

(** The enumeration is lexicographic: position [2i + parity] holds
    [(i, parity)], for [0 <= i < cofactor] and parity 0 or 1. *)
Lemma candidates_lookup (h : Z) (k : nat) (i parity : Z) :
  candidates h !! k = Some (i, parity)
  <-> 0 <= i < h /\ (parity = 0 \/ parity = 1) /\ Z.of_nat k = 2 * i + parity.
Proof.
  unfold candidates.
  assert (Hk : exists q, k = (2 * q)%nat \/ k = S (2 * q)).
  { exists (Nat.div2 k). destruct (Nat.Even_Odd_dec k) as [He | Ho].
    - left. rewrite <- Nat.double_twice. by apply Nat.Even_double.
    - right. rewrite <- Nat.double_twice. by apply Nat.Odd_double. }
  destruct Hk as (q & [-> | ->]);
    destruct (lookup_flat_map_pairs (fun i => (i, 0)) (fun i => (i, 1))
                (seqZ 0 h) q) as [Heven Hodd].
  - rewrite Heven. destruct (seqZ 0 h !! q) as [x|] eqn:Hq; simpl.
    + apply lookup_seqZ in Hq. split.
      * intros [= <- <-]. lia.
      * intros (? & ? & ?). f_equal. f_equal; lia.
    + split; [done|]. intros (? & ? & ?).
      assert (seqZ 0 h !! q = Some (0 + Z.of_nat q)) as Hq'
        by (apply lookup_seqZ; lia).
      congruence.
  - rewrite Hodd. destruct (seqZ 0 h !! q) as [x|] eqn:Hq; simpl.
    + apply lookup_seqZ in Hq. split.
      * intros [= <- <-]. lia.
      * intros (? & ? & ?). f_equal. f_equal; lia.
    + split; [done|]. intros (? & ? & ?).
      assert (seqZ 0 h !! q = Some (0 + Z.of_nat q)) as Hq'
        by (apply lookup_seqZ; lia).
      congruence.
Qed.

(** ** SignatureInputDeriver *)

Lemma equals_eq (a b : WeierstrassPoint) : equals a b = true <-> a = b.
Proof.
  unfold equals. rewrite andb_true_iff, !Z.eqb_eq.
  destruct a, b; simpl. split; [intros [-> ->]; done | by intros [= -> ->]].
Qed.

Lemma call_Returns {A} (x : answer A) (a : A) :
  call x = Returns a <-> x = Ok a.
Proof. destruct x; simpl; split; congruence. Qed.

Lemma bind_Returns {A B} (m : outcome A) (k : A -> outcome B) (b : B) :
  bind m k = Returns b <-> exists a, m = Returns a /\ k a = Returns b.
Proof.
  destruct m; simpl; split.
  - eauto.
  - by intros (? & [= <-] & ?).
  - discriminate.
  - by intros (? & ? & _).
Qed.

Section DeriverProperties.

Variable babyjubjub : BabyJubJub.
Variable WP : PointModel (ec babyjubjub).
Variables (sig : Signature) (msgHash : Z) (pubKey : WeierstrassPoint).

(** The two nested loops are one scan of [candidates] in order. *)
Lemma getPublicInputsFromSignature_scan :
  getPublicInputsFromSignature babyjubjub WP sig msgHash pubKey
  = finish (forEach (candidates (cofactor babyjubjub))
              (fun c => candidate babyjubjub WP sig msgHash pubKey
                          (fst c) (snd c))).
Proof.
  unfold getPublicInputsFromSignature. f_equal.
  exact (forEach_nested (seqZ 0 (cofactor babyjubjub)) [0; 1]
           (candidate babyjubjub WP sig msgHash pubKey)).
Qed.

(** What has been computed when the check point is reached. *)
Lemma recoverAndCheck_Some i parity c :
  recoverAndCheck babyjubjub WP sig msgHash i parity = Returns (Some c) ->
  exists rInv,
    let curve := ec babyjubjub in
    let x := candidateX babyjubjub sig i in
    let rInvm :=
      ZqField.neg (Fs babyjubjub) (ZqField.mul (Fs babyjubjub) rInv msgHash) in
    ZqField.inv (Fs babyjubjub) x = Ok rInv /\
    Elliptic.pointFromX curve x parity = Ok (ecR c) /\
    fromEllipticPoint WP (Elliptic.mul curve (ecR c) rInv) = Ok (Tw c) /\
    fromEllipticPoint WP (Elliptic.mul curve (Elliptic.g curve) rInvm)
    = Ok (Uw c) /\
    fromEllipticPoint WP
      (Elliptic.add curve
         (Elliptic.mul curve (Elliptic.mul curve (ecR c) rInv) (s sig))
         (Elliptic.mul curve (Elliptic.g curve) rInvm))
    = Ok (sTU c).
Proof.
  unfold recoverAndCheck. intros H.
  apply bind_Returns in H as (rInv & HrInv%call_Returns & H).
  exists rInv. cbv zeta.
  destruct (Elliptic.pointFromX _ _ _) as [P|]; [|discriminate].
  apply bind_Returns in H as (T0 & HT%call_Returns & H).
  apply bind_Returns in H as (U0 & HU%call_Returns & H).
  apply bind_Returns in H as (C0 & HC%call_Returns & H).
  injection H as <-. simpl. done.
Qed.

(** A candidate with no curve point is skipped: once the inversion has
    succeeded, an error of [pointFromX] is caught and the iteration falls
    through to the next candidate. *)
Lemma recoverAndCheck_skips i parity rInv kind :
  ZqField.inv (Fs babyjubjub) (candidateX babyjubjub sig i) = Ok rInv ->
  Elliptic.pointFromX (ec babyjubjub) (candidateX babyjubjub sig i) parity
  = Raise kind ->
  recoverAndCheck babyjubjub WP sig msgHash i parity = Returns None.
Proof.
  unfold recoverAndCheck. intros -> ->. reflexivity.
Qed.

(** Whatever an iteration throws is a library error. *)
Lemma candidate_Throws i parity e :
  candidate babyjubjub WP sig msgHash pubKey i parity = Throws e ->
  exists kind, e = CollaboratorError kind.
Proof.
  unfold candidate, recoverAndCheck. intros H.
  repeat match type of H with
  | context [call ?x] => destruct x; simpl in H
  | context [match ?x with Ok _ => _ | Raise _ => _ end] =>
      destruct x; simpl in H
  | context [if ?b then _ else _] => destruct b; simpl in H
  end; try discriminate; injection H as <-; eauto.
Qed.

Lemma candidate_None i parity :
  candidate babyjubjub WP sig msgHash pubKey i parity = Returns None
  <-> passedOver babyjubjub WP sig msgHash pubKey i parity.
Proof.
  unfold candidate, passedOver.
  destruct (recoverAndCheck babyjubjub WP sig msgHash i parity)
    as [[c|]|e]; simpl.
  - destruct (equals (sTU c) pubKey) eqn:Heq.
    + split.
      * intros H.
        repeat match type of H with
        | bind (call ?x) _ = _ => destruct x; simpl in H; try discriminate
        end.
      * intros [? | (c' & [= <-] & ?)]; congruence.
    + split; [|done]. intros _. right. eauto.
  - split; [by left | done].
  - split; [done|]. intros [? | (? & ? & _)]; done.
Qed.

Lemma candidate_Some i parity inputs :
  candidate babyjubjub WP sig msgHash pubKey i parity = Returns (Some inputs)
  -> exists c Rw,
       recoverAndCheck babyjubjub WP sig msgHash i parity = Returns (Some c) /\
       equals (sTU c) pubKey = true /\
       fromEllipticPoint WP (ecR c) = Ok Rw /\
       toEdwards WP Rw = Ok (R inputs) /\
       toEdwards WP (Tw c) = Ok (T inputs) /\
       toEdwards WP (Uw c) = Ok (U inputs).
Proof.
  unfold candidate. intros H.
  apply bind_Returns in H as ([c|] & Hc & H); [|discriminate].
  destruct (equals (sTU c) pubKey) eqn:Heq; [|discriminate].
  apply bind_Returns in H as (Rw & HR%call_Returns & H).
  apply bind_Returns in H as (R' & HR'%call_Returns & H).
  apply bind_Returns in H as (T' & HT'%call_Returns & H).
  apply bind_Returns in H as (U' & HU'%call_Returns & H).
  injection H as <-. exists c, Rw. simpl. done.
Qed.

(** The returned value is the one of the first candidate, in the order of
    [candidates], that does not fall through. *)
Lemma getPublicInputsFromSignature_Returns inputs :
  getPublicInputsFromSignature babyjubjub WP sig msgHash pubKey
  = Returns inputs
  <-> exists k i parity,
        candidates (cofactor babyjubjub) !! k = Some (i, parity) /\
        candidate babyjubjub WP sig msgHash pubKey i parity
        = Returns (Some inputs) /\
        forall j i' parity', (j < k)%nat ->
          candidates (cofactor babyjubjub) !! j = Some (i', parity') ->
          candidate babyjubjub WP sig msgHash pubKey i' parity'
          = Returns None.
Proof.
  rewrite getPublicInputsFromSignature_scan.
  set (body := fun c : Z * Z => _).
  assert (Hfinish : finish (forEach (candidates (cofactor babyjubjub)) body)
                    = Returns inputs
                    <-> forEach (candidates (cofactor babyjubjub)) body
                        = Returns (Some inputs)).
  { destruct (forEach _ body) as [[?|]|]; simpl; split; congruence. }
  rewrite Hfinish, (forEach_decided _ body (Returns (Some inputs)))
    by discriminate.
  split.
  - intros (k & [i parity] & Hk & Hbody & Hbefore).
    exists k, i, parity. repeat split; [done.. |].
    intros j i' parity' Hj Hj'. exact (Hbefore j (i', parity') Hj Hj').
  - intros (k & i & parity & Hk & Hbody & Hbefore).
    exists k, (i, parity). repeat split; [done.. |].
    intros j [i' parity'] Hj Hj'. exact (Hbefore j i' parity' Hj Hj').
Qed.

(** The final [throw] is reached exactly when every candidate falls
    through. *)
Lemma getPublicInputsFromSignature_NoValidCandidateFound :
  getPublicInputsFromSignature babyjubjub WP sig msgHash pubKey
  = Throws NoValidCandidateFound
  <-> forall i parity,
        0 <= i < cofactor babyjubjub -> parity = 0 \/ parity = 1 ->
        candidate babyjubjub WP sig msgHash pubKey i parity = Returns None.
Proof.
  rewrite getPublicInputsFromSignature_scan.
  set (body := fun c : Z * Z => _).
  assert (Hfinish : finish (forEach (candidates (cofactor babyjubjub)) body)
                    = Throws NoValidCandidateFound
                    <-> forEach (candidates (cofactor babyjubjub)) body
                        = Returns None).
  { destruct (forEach _ body) as [[?|]|e] eqn:Hloop; simpl;
      split; try congruence.
    intros [= ->].
    apply (forEach_decided _ body (Throws NoValidCandidateFound)) in Hloop
      as (k & [i parity] & _ & Hbody & _); [|discriminate].
    apply candidate_Throws in Hbody as (kind & ?). discriminate. }
  rewrite Hfinish, forEach_None. split.
  - intros H i parity Hi Hparity.
    apply (H (Z.to_nat (2 * i + parity)) (i, parity)).
    apply candidates_lookup. lia.
  - intros H k [i parity] Hk. apply candidates_lookup in Hk.
    apply H; tauto.
Qed.

(** An error of the inversion for the first candidate leaves the function:
    the inversion is evaluated before the [try] block. *)
Lemma inversion_error_propagates kind :
  0 < cofactor babyjubjub ->
  ZqField.inv (Fs babyjubjub) (candidateX babyjubjub sig 0) = Raise kind ->
  getPublicInputsFromSignature babyjubjub WP sig msgHash pubKey
  = Throws (CollaboratorError kind).
Proof.
  intros Hh Hinv. unfold getPublicInputsFromSignature.
  rewrite seqZ_cons by done. cbn [forEach].
  unfold candidate at 1. unfold recoverAndCheck. rewrite Hinv. reflexivity.
Qed.

(** An error raised while evaluating the first candidate that does not
    fall through leaves the function as it is. *)
Lemma getPublicInputsFromSignature_Throws k i parity e :
  candidates (cofactor babyjubjub) !! k = Some (i, parity) ->
  (forall j i' parity', (j < k)%nat ->
     candidates (cofactor babyjubjub) !! j = Some (i', parity') ->
     candidate babyjubjub WP sig msgHash pubKey i' parity' = Returns None) ->
  candidate babyjubjub WP sig msgHash pubKey i parity = Throws e ->
  getPublicInputsFromSignature babyjubjub WP sig msgHash pubKey = Throws e.
Proof.
  intros Hk Hbefore Hthrow.
  rewrite getPublicInputsFromSignature_scan.
  set (body := fun c : Z * Z => _).
  enough (Hloop : forEach (candidates (cofactor babyjubjub)) body = Throws e)
    by (by rewrite Hloop).
  apply (forEach_decided _ body (Throws e)); [discriminate|].
  exists k, (i, parity). repeat split; [done.. |].
  intros j [i' parity'] Hj Hj'. exact (Hbefore j i' parity' Hj Hj').
Qed.

(** An error of the inversion is the error of the whole iteration. *)
Lemma candidate_inversion_error i parity kind :
  ZqField.inv (Fs babyjubjub) (candidateX babyjubjub sig i) = Raise kind ->
  candidate babyjubjub WP sig msgHash pubKey i parity
  = Throws (CollaboratorError kind).
Proof.
  intros Hinv. unfold candidate, recoverAndCheck. by rewrite Hinv.
Qed.

(** What being passed over means for the collaborators: the inversion
    succeeded, and either the point recovery failed, or the three points
    were computed and the check point is not the public key. *)
Lemma passedOver_collaborators i parity :
  passedOver babyjubjub WP sig msgHash pubKey i parity
  <-> exists rInv,
        let curve := ec babyjubjub in
        let x := candidateX babyjubjub sig i in
        let rInvm :=
          ZqField.neg (Fs babyjubjub)
            (ZqField.mul (Fs babyjubjub) rInv msgHash) in
        ZqField.inv (Fs babyjubjub) x = Ok rInv /\
        ((exists kind, Elliptic.pointFromX curve x parity = Raise kind) \/
         (exists ecR Tw Uw check,
            Elliptic.pointFromX curve x parity = Ok ecR /\
            fromEllipticPoint WP (Elliptic.mul curve ecR rInv) = Ok Tw /\
            fromEllipticPoint WP (Elliptic.mul curve (Elliptic.g curve) rInvm)
            = Ok Uw /\
            fromEllipticPoint WP
              (Elliptic.add curve
                 (Elliptic.mul curve (Elliptic.mul curve ecR rInv) (s sig))
                 (Elliptic.mul curve (Elliptic.g curve) rInvm))
            = Ok check /\
            check <> pubKey)).
Proof.
  cbv zeta. split.
  - intros [Hnone | (c & Hc & Hneq)].
    + unfold recoverAndCheck in Hnone.
      destruct (ZqField.inv _ _) as [rInv|]; [|discriminate].
      exists rInv. split; [done|]. cbn [call bind] in Hnone.
      destruct (Elliptic.pointFromX _ _ _) as [P|kind]; [|by left; eauto].
      repeat match type of Hnone with
             | bind (call ?x) _ = _ =>
                 destruct x; cbn [call bind] in Hnone; try discriminate
             end.
    + apply recoverAndCheck_Some in Hc
        as (rInv & Hinv & Hpoint & HT & HU & Hcheck).
      exists rInv. split; [done|]. right.
      exists (ecR c), (Tw c), (Uw c), (sTU c). repeat split; try done.
      intros Heq%equals_eq. congruence.
  - intros (rInv & Hinv & [[kind Hpoint] | Hrest]).
    + left. by apply (recoverAndCheck_skips i parity rInv kind).
    + destruct Hrest as (P & Tw0 & Uw0 & check & Hpoint & HT & HU & Hcheck
                         & Hneq).
      right. exists (mkChecked P Tw0 Uw0 check). split.
      * unfold recoverAndCheck. rewrite Hinv. cbn [call bind].
        rewrite Hpoint, HT. cbn [call bind]. rewrite HU. cbn [call bind].
        by rewrite Hcheck.
      * simpl. destruct (equals check pubKey) eqn:Heq; [|done].
        by apply equals_eq in Heq.
Qed.

End DeriverProperties.

(** ** The deriver over modular fields *)

Lemma candidateX_new curve pb n h sig i :
  candidateX (mkBabyJubJub curve (ZqField.new pb) (ZqField.new n) h) sig i
  = (r sig + i * n) mod pb.
Proof. unfold candidateX. simpl. apply Zplus_mod_idemp_r. Qed.

Lemma neg_mul_new n a b :
  ZqField.neg (ZqField.new n) (ZqField.mul (ZqField.new n) a b)
  = (- (a * b)) mod n.
Proof.
  simpl. rewrite <- (Z.sub_0_l ((a * b) mod n)), Zminus_mod_idemp_r.
  by rewrite Z.sub_0_l.
Qed.

Lemma inv_new_Ok n x y :
  ZqField.inv (ZqField.new n) x = Ok y
  <-> x mod n <> 0 /\ y = Z.invmod x n.
Proof.
  simpl. destruct (Z.eqb_spec (x mod n) 0) as [Hz | Hnz]; split.
  - discriminate.
  - by intros [? _].
  - by intros [= <-].
  - by intros [_ ->].
Qed.

(** In a prime order field the value [inv] answers is the modular inverse. *)
Lemma inv_new_inverse n x y :
  Z.prime n -> ZqField.inv (ZqField.new n) x = Ok y -> (y * x) mod n = 1.
Proof.
  intros Hn [Hx ->]%inv_new_Ok. by apply Z.invmod_prime.
Qed.

(** With [sig.r = 0] and no candidate wrapping past the base-field prime
    (for Baby Jubjub, [7 * n < p]), every candidate x is a multiple of [n]:
    each inversion raises, so no candidate reaches its check, on any curve. *)
Lemma zero_r_no_candidate_satisfies
    curve (WP : PointModel curve) pb n h sig msgHash pubKey i parity :
  0 < n -> (h - 1) * n < pb -> r sig = 0 -> 0 <= i < h ->
  ~ satisfiesCheck (mkBabyJubJub curve (ZqField.new pb) (ZqField.new n) h) WP
      sig msgHash pubKey i parity.
Proof.
  intros Hn Hwrap Hr Hi (c & Hc & _).
  apply recoverAndCheck_Some in Hc as (rInv & Hinv & _).
  rewrite candidateX_new, Hr in Hinv. cbn [Fs] in Hinv.
  apply inv_new_Ok in Hinv as [Hx _]. apply Hx.
  rewrite Z.add_0_l, (Z.mod_small (i * n) pb) by nia.
  apply Z_mod_mult.
Qed.

Lemma TinyCurve_n_prime : Z.prime TinyCurve.n.
Proof.
  split; [reflexivity|]. intros k Hk [q Hq]. unfold TinyCurve.n in *.
  assert (Hcases : k = 2 \/ k = 3 \/ k = 4 \/ k = 5 \/ k = 6 \/ k = 7 \/
                   k = 8 \/ k = 9 \/ k = 10) by lia.
  repeat destruct Hcases as [-> | Hcases]; try subst k; lia.
Qed.

(** C2, as amended.  Whenever [getPublicInputsFromSignature] returns, it
    does so for a candidate [(i, parity)] with recovered point [ecR], and
    with [x] the candidate value [(sig.r + i*n) mod p] of that iteration
    (the source's local [r]): [rInv] is the modular inverse of [x] in the
    order field, which is the inverse of the signature's [r] whenever
    [0 <= sig.r] and [sig.r + i*n] is below [p]; the returned [R], [T], [U]
    are the Edwards forms of [ecR], of [T = ecR * rInv] and of
    [U = G * (-(rInv * msgHash))]; and the Weierstrass form of [s*T + U] is
    exactly [pubKey]. *)
Theorem returned_points_efficient_ecdsa
    curve (WP : PointModel curve) pb n h sig msgHash pubKey inputs :
  Z.prime n ->
  getPublicInputsFromSignature
    (mkBabyJubJub curve (ZqField.new pb) (ZqField.new n) h) WP
    sig msgHash pubKey = Returns inputs ->
  exists i parity rInv ecR Rw Tw Uw,
    let x := (r sig + i * n) mod pb in
    let G := Elliptic.g curve in
    let ecT := Elliptic.mul curve ecR rInv in
    let ecU := Elliptic.mul curve G ((- (rInv * msgHash)) mod n) in
    (0 <= i < h /\ (parity = 0 \/ parity = 1)) /\
    (ZqField.inv (ZqField.new n) x = Ok rInv /\
     (rInv * x) mod n = 1 /\
     (0 <= r sig -> r sig + i * n < pb -> (rInv * r sig) mod n = 1)) /\
    Elliptic.pointFromX curve x parity = Ok ecR /\
    (fromEllipticPoint WP ecR = Ok Rw /\ toEdwards WP Rw = Ok (R inputs)) /\
    (fromEllipticPoint WP ecT = Ok Tw /\ toEdwards WP Tw = Ok (T inputs)) /\
    (fromEllipticPoint WP ecU = Ok Uw /\ toEdwards WP Uw = Ok (U inputs)) /\
    fromEllipticPoint WP (Elliptic.add curve (Elliptic.mul curve ecT (s sig)) ecU)
    = Ok pubKey.
Proof.
  intros Hn Hret.
  apply getPublicInputsFromSignature_Returns in Hret
    as (k & i & parity & Hk%candidates_lookup & Hcand & _).
  apply candidate_Some in Hcand
    as (c & Rw & Hc & Heq%equals_eq & HR & HR' & HT' & HU').
  apply recoverAndCheck_Some in Hc
    as (rInv & Hinv & Hpoint & HT & HU & Hcheck).
  rewrite candidateX_new in Hinv, Hpoint.
  cbn [Fs ec] in Hinv, Hpoint, HT, HU, Hcheck.
  rewrite neg_mul_new in HU, Hcheck.
  exists i, parity, rInv, (ecR c), Rw, (Tw c), (Uw c). cbv zeta.
  pose proof (inv_new_inverse n _ _ Hn Hinv) as Hinverse.
  pose proof (Z.prime_ge_2 n Hn) as Hn2.
  destruct Hk as (Hi & Hparity & _).
  assert (Hin : 0 <= i * n) by (apply Z.mul_nonneg_nonneg; lia).
  repeat split; try tauto; try done.
  - intros Hr Hlt.
    rewrite (Z.mod_small (r sig + i * n) pb) in Hinverse by lia.
    rewrite Z.mul_add_distr_l, Z.mul_assoc, Z_mod_plus_full in Hinverse.
    exact Hinverse.
  - by rewrite <- Heq.
Qed.

(** C3 (enumeration order, first match wins).  The candidates are visited in
    one fixed order, [i] ascending from 0 to [cofactor - 1] and parity 0
    before parity 1 (position [2i + parity]); the candidate x-coordinate of
    iteration [i] is [sig.r + i*n] reduced modulo the base-field prime; the
    function returns [inputs] exactly when some candidate satisfies the check
    and yields [inputs] while every candidate before it in the order was
    passed over; and equal arguments give equal results. *)
Theorem candidates_in_order_first_match
    curve (WP : PointModel curve) pb n h sig msgHash pubKey :
  let babyjubjub := mkBabyJubJub curve (ZqField.new pb) (ZqField.new n) h in
  (forall k i parity,
     candidates h !! k = Some (i, parity)
     <-> 0 <= i < h /\ (parity = 0 \/ parity = 1) /\
         Z.of_nat k = 2 * i + parity) /\
  (forall i, candidateX babyjubjub sig i = (r sig + i * n) mod pb) /\
  getPublicInputsFromSignature babyjubjub WP sig msgHash pubKey
  = finish (forEach (candidates h)
              (fun c => candidate babyjubjub WP sig msgHash pubKey
                          (fst c) (snd c))) /\
  (forall inputs,
     getPublicInputsFromSignature babyjubjub WP sig msgHash pubKey
     = Returns inputs
     <-> exists k i parity,
           candidates h !! k = Some (i, parity) /\
           satisfiesCheck babyjubjub WP sig msgHash pubKey i parity /\
           candidate babyjubjub WP sig msgHash pubKey i parity
           = Returns (Some inputs) /\
           forall j i' parity', (j < k)%nat ->
             candidates h !! j = Some (i', parity') ->
             passedOver babyjubjub WP sig msgHash pubKey i' parity') /\
  (forall sig' msgHash' pubKey',
     sig' = sig -> msgHash' = msgHash -> pubKey' = pubKey ->
     getPublicInputsFromSignature babyjubjub WP sig' msgHash' pubKey'
     = getPublicInputsFromSignature babyjubjub WP sig msgHash pubKey).
Proof.
  intros babyjubjub.
  split; [intros; apply candidates_lookup|].
  split; [intros; apply candidateX_new|].
  split; [apply getPublicInputsFromSignature_scan|].
  split; [|by intros ? ? ? -> -> ->].
  intros inputs.
  rewrite (getPublicInputsFromSignature_Returns babyjubjub WP). split.
  - intros (k & i & parity & Hk & Hcand & Hbefore).
    exists k, i, parity. repeat split; [done | | done |].
    + apply (candidate_Some babyjubjub WP) in Hcand
        as (c & _ & Hc & Heq & _). by exists c.
    + intros j i' parity' Hj Hj'.
      apply (candidate_None babyjubjub WP). by apply (Hbefore j).
  - intros (k & i & parity & Hk & _ & Hcand & Hbefore).
    exists k, i, parity. repeat split; [done.. |].
    intros j i' parity' Hj Hj'.
    apply (candidate_None babyjubjub WP). by apply (Hbefore j).
Qed.

(** C4, as amended.  [getPublicInputsFromSignature] fails with
    [NoValidCandidateFound] if and only if every candidate, for all [i] in
    [[0, cofactor)] and both parities, is passed over: its inversion
    succeeded, and either [pointFromX] failed or the three points were
    computed and the check point is not [pubKey].  The first candidate in
    the order that is not passed over decides: when evaluating it raises a
    collaborator error, in particular when its order-field inversion fails,
    that error is thrown and not [NoValidCandidateFound].  A candidate x for
    which [pointFromX] fails is passed over: the iteration falls through to
    the next one and the failure is not propagated. *)
Theorem no_valid_candidate_iff_all_passed_over
    babyjubjub (WP : PointModel (ec babyjubjub)) sig msgHash pubKey :
  (getPublicInputsFromSignature babyjubjub WP sig msgHash pubKey
   = Throws NoValidCandidateFound
   <-> forall i parity,
         0 <= i < cofactor babyjubjub -> parity = 0 \/ parity = 1 ->
         passedOver babyjubjub WP sig msgHash pubKey i parity) /\
  (forall i parity,
     passedOver babyjubjub WP sig msgHash pubKey i parity
     <-> exists rInv,
           let curve := ec babyjubjub in
           let x := candidateX babyjubjub sig i in
           let rInvm :=
             ZqField.neg (Fs babyjubjub)
               (ZqField.mul (Fs babyjubjub) rInv msgHash) in
           ZqField.inv (Fs babyjubjub) x = Ok rInv /\
           ((exists kind, Elliptic.pointFromX curve x parity = Raise kind) \/
            (exists ecR Tw Uw check,
               Elliptic.pointFromX curve x parity = Ok ecR /\
               fromEllipticPoint WP (Elliptic.mul curve ecR rInv) = Ok Tw /\
               fromEllipticPoint WP
                 (Elliptic.mul curve (Elliptic.g curve) rInvm) = Ok Uw /\
               fromEllipticPoint WP
                 (Elliptic.add curve
                    (Elliptic.mul curve (Elliptic.mul curve ecR rInv)
                       (s sig))
                    (Elliptic.mul curve (Elliptic.g curve) rInvm))
               = Ok check /\
               check <> pubKey))) /\
  (forall k i parity,
     candidates (cofactor babyjubjub) !! k = Some (i, parity) ->
     (forall j i' parity', (j < k)%nat ->
        candidates (cofactor babyjubjub) !! j = Some (i', parity') ->
        passedOver babyjubjub WP sig msgHash pubKey i' parity') ->
     (forall kind,
        ZqField.inv (Fs babyjubjub) (candidateX babyjubjub sig i)
        = Raise kind ->
        getPublicInputsFromSignature babyjubjub WP sig msgHash pubKey
        = Throws (CollaboratorError kind)) /\
     (forall e,
        candidate babyjubjub WP sig msgHash pubKey i parity = Throws e ->
        getPublicInputsFromSignature babyjubjub WP sig msgHash pubKey
        = Throws e /\
        e <> NoValidCandidateFound)) /\
  (forall i parity rInv kind,
     ZqField.inv (Fs babyjubjub) (candidateX babyjubjub sig i) = Ok rInv ->
     Elliptic.pointFromX (ec babyjubjub) (candidateX babyjubjub sig i) parity
     = Raise kind ->
     passedOver babyjubjub WP sig msgHash pubKey i parity /\
     candidate babyjubjub WP sig msgHash pubKey i parity = Returns None).
Proof.
  split; [|split; [|split]].
  - rewrite getPublicInputsFromSignature_NoValidCandidateFound.
    split; intros H i parity Hi Hparity; apply candidate_None; by apply H.
  - intros i parity. apply passedOver_collaborators.
  - intros k i parity Hk Hbefore.
    assert (Hnone : forall j i' parity', (j < k)%nat ->
              candidates (cofactor babyjubjub) !! j = Some (i', parity') ->
              candidate babyjubjub WP sig msgHash pubKey i' parity'
              = Returns None).
    { intros j i' parity' Hj Hj'. apply candidate_None.
      by apply (Hbefore j). }
    split.
    + intros kind Hinv.
      apply (getPublicInputsFromSignature_Throws _ _ _ _ _ k i parity);
        [done.. |].
      by apply candidate_inversion_error.
    + intros e He. split.
      * by apply (getPublicInputsFromSignature_Throws _ _ _ _ _ k i parity).
      * apply candidate_Throws in He as (kind & ->). discriminate.
  - intros i parity rInv kind Hinv Hpoint.
    assert (Hskip : passedOver babyjubjub WP sig msgHash pubKey i parity).
    { left. by apply (recoverAndCheck_skips _ _ _ _ _ _ rInv kind). }
    split; [done | by apply candidate_None].
Qed.

(** C9 (inversion of zero).  With [sig.r = 0] the order-field inversion for
    the first candidate raises its arithmetic error, and
    [getPublicInputsFromSignature] throws that very error: it is neither
    caught as a skipped candidate nor turned into [NoValidCandidateFound]. *)
Theorem zero_r_inversion_error_propagates
    curve (WP : PointModel curve) pb n h sig msgHash pubKey :
  0 < h ->
  r sig = 0 ->
  ZqField.inv (ZqField.new n) (r sig) = Raise DivisionByZero /\
  getPublicInputsFromSignature
    (mkBabyJubJub curve (ZqField.new pb) (ZqField.new n) h) WP
    sig msgHash pubKey = Throws (CollaboratorError DivisionByZero) /\
  getPublicInputsFromSignature
    (mkBabyJubJub curve (ZqField.new pb) (ZqField.new n) h) WP
    sig msgHash pubKey <> Throws NoValidCandidateFound.
Proof.
  intros Hh Hr.
  assert (Hinv : ZqField.inv (ZqField.new n) (r sig) = Raise DivisionByZero).
  { rewrite Hr. cbn [ZqField.inv ZqField.new]. by rewrite Zmod_0_l. }
  assert (Hthrows :
    getPublicInputsFromSignature
      (mkBabyJubJub curve (ZqField.new pb) (ZqField.new n) h) WP
      sig msgHash pubKey = Throws (CollaboratorError DivisionByZero)).
  { apply inversion_error_propagates; [done|].
    rewrite candidateX_new, Hr. cbn [Fs].
    rewrite Z.mul_0_l, Z.add_0_l, Zmod_0_l. by rewrite <- Hr. }
  split; [done|]. split; [done|]. rewrite Hthrows. discriminate.
Qed.

(** The small curve behaves as the text above says: [g] has order 11 and
    the honest key and nonce point are its multiples. *)
Example TinyCurve_g_order :
  TinyCurve.mul TinyCurve.g TinyCurve.n = None /\
  TinyCurve.fromEllipticPoint (TinyCurve.mul TinyCurve.g 2)
  = Ok TinyCurve.honestKey /\
  TinyCurve.mul TinyCurve.g 6 = Some (69, 17).
Proof. repeat split; vm_compute; reflexivity. Qed.

Lemma returned_points_efficient_ecdsa_witness :
  (Z.prime TinyCurve.n /\
   getPublicInputsFromSignature TinyCurve.babyjubjub TinyCurve.WP
     TinyCurve.honestSig TinyCurve.honestMsgHash TinyCurve.honestKey
   = Returns (mkPublicInputs (mkEdwards 7 26) (mkEdwards 14 7)
                (mkEdwards 50 77))) /\
  exists i parity rInv ecR Rw Tw Uw,
    let x := (3 + i * 11) mod 79 in
    let ecT := TinyCurve.mul ecR rInv in
    let ecU := TinyCurve.mul TinyCurve.g ((- (rInv * 1)) mod 11) in
    (0 <= i < 8 /\ (parity = 0 \/ parity = 1)) /\
    (ZqField.inv (ZqField.new 11) x = Ok rInv /\
     (rInv * x) mod 11 = 1 /\
     (0 <= 3 -> 3 + i * 11 < 79 -> (rInv * 3) mod 11 = 1)) /\
    TinyCurve.pointFromX x parity = Ok ecR /\
    (TinyCurve.fromEllipticPoint ecR = Ok Rw /\
     TinyCurve.toEdwards Rw = Ok (mkEdwards 7 26)) /\
    (TinyCurve.fromEllipticPoint ecT = Ok Tw /\
     TinyCurve.toEdwards Tw = Ok (mkEdwards 14 7)) /\
    (TinyCurve.fromEllipticPoint ecU = Ok Uw /\
     TinyCurve.toEdwards Uw = Ok (mkEdwards 50 77)) /\
    TinyCurve.fromEllipticPoint
      (TinyCurve.add (TinyCurve.mul ecT 3) ecU) = Ok (mkWeierstrass 54 30).
Proof.
  assert (Hret :
    getPublicInputsFromSignature TinyCurve.babyjubjub TinyCurve.WP
      TinyCurve.honestSig TinyCurve.honestMsgHash TinyCurve.honestKey
    = Returns (mkPublicInputs (mkEdwards 7 26) (mkEdwards 14 7)
                 (mkEdwards 50 77))) by (vm_compute; reflexivity).
  exact (conj (conj TinyCurve_n_prime Hret)
           (returned_points_efficient_ecdsa TinyCurve.curve TinyCurve.WP
              TinyCurve.p TinyCurve.n 8 TinyCurve.honestSig
              TinyCurve.honestMsgHash TinyCurve.honestKey _
              TinyCurve_n_prime Hret)).
Defined.

(** On the small curve the honest signature is found at the fourteenth
    candidate, [i = 6] with parity 1, after thirteen candidates were passed
    over. *)
Lemma candidates_in_order_first_match_witness :
  getPublicInputsFromSignature TinyCurve.babyjubjub TinyCurve.WP
    TinyCurve.honestSig TinyCurve.honestMsgHash TinyCurve.honestKey
  = Returns (mkPublicInputs (mkEdwards 7 26) (mkEdwards 14 7)
               (mkEdwards 50 77)).
Proof.
  apply (proj1 (proj2 (proj2 (proj2
           (candidates_in_order_first_match TinyCurve.curve TinyCurve.WP
              TinyCurve.p TinyCurve.n 8 TinyCurve.honestSig
              TinyCurve.honestMsgHash TinyCurve.honestKey))))).
  exists 13%nat, 6, 1. split; [reflexivity|]. split.
  - eexists. split; [vm_compute; reflexivity | reflexivity].
  - split; [vm_compute; reflexivity|].
    intros j i' parity' Hj Hc.
    do 13 (destruct j as [|j];
           [injection Hc as <- <-;
            apply (candidate_None TinyCurve.babyjubjub TinyCurve.WP);
            vm_compute; reflexivity|]).
    lia.
Defined.

(** C2, as stated, fails: on the small curve the function returns for the
    wrapped input, matched at [i = 7] where the inverted value is
    [80 mod 79 = 1], and the returned [T] is not the Edwards form of any
    candidate point multiplied by the inverse of the signature's [r] in the
    order field (which is 4). *)
Lemma returned_T_not_by_inverse_of_signature_r :
  ~ (forall inputs,
       getPublicInputsFromSignature TinyCurve.babyjubjub TinyCurve.WP
         TinyInputs.wrappedSig TinyInputs.wrappedMsgHash TinyInputs.wrappedKey
       = Returns inputs ->
       exists i parity rInv ecR Tw,
         0 <= i < 8 /\ (parity = 0 \/ parity = 1) /\
         0 <= rInv < TinyCurve.n /\
         (rInv * r TinyInputs.wrappedSig) mod TinyCurve.n = 1 /\
         TinyCurve.pointFromX
           ((r TinyInputs.wrappedSig + i * TinyCurve.n) mod TinyCurve.p)
           parity = Ok ecR /\
         TinyCurve.fromEllipticPoint (TinyCurve.mul ecR rInv) = Ok Tw /\
         TinyCurve.toEdwards Tw = Ok (T inputs)).
Proof.
  intros H.
  assert (Hret :
    getPublicInputsFromSignature TinyCurve.babyjubjub TinyCurve.WP
      TinyInputs.wrappedSig TinyInputs.wrappedMsgHash TinyInputs.wrappedKey
    = Returns (mkPublicInputs (mkEdwards 6 4) (mkEdwards 6 4)
                 (mkEdwards 15 54))) by (vm_compute; reflexivity).
  destruct (H _ Hret)
    as (i & parity & rInv & P & Tw0 & Hi & Hparity & Hr & Hinv & Hpoint & HT
        & HE).
  unfold TinyCurve.n in Hr.
  assert (HrInv : rInv = 0 \/ rInv = 1 \/ rInv = 2 \/ rInv = 3 \/ rInv = 4 \/
                  rInv = 5 \/ rInv = 6 \/ rInv = 7 \/ rInv = 8 \/ rInv = 9 \/
                  rInv = 10) by lia.
  assert (rInv = 4) as ->.
  { repeat destruct HrInv as [-> | HrInv]; try subst rInv;
      first [reflexivity | vm_compute in Hinv; discriminate]. }
  assert (Hcheck :
    match TinyCurve.pointFromX
            ((r TinyInputs.wrappedSig + i * TinyCurve.n) mod TinyCurve.p)
            parity with
    | Ok Q =>
        match TinyCurve.fromEllipticPoint (TinyCurve.mul Q 4) with
        | Ok w =>
            match TinyCurve.toEdwards w with
            | Ok e => negb ((ex e =? 6) && (ey e =? 4))
            | Raise _ => true
            end
        | Raise _ => true
        end
    | Raise _ => true
    end = true).
  { assert (Hcases : i = 0 \/ i = 1 \/ i = 2 \/ i = 3 \/ i = 4 \/ i = 5 \/
                     i = 6 \/ i = 7) by lia.
    repeat destruct Hcases as [-> | Hcases]; try subst i;
      destruct Hparity as [-> | ->]; vm_compute; reflexivity. }
  rewrite Hpoint, HT, HE in Hcheck. discriminate.
Qed.

(** C4, as stated, fails: with [r = 0] no candidate satisfies the check,
    every inversion raising its error, and yet the function does not fail
    with [NoValidCandidateFound]. *)
Lemma no_valid_candidate_iff_fails_on_zero_r :
  ~ (getPublicInputsFromSignature TinyCurve.babyjubjub TinyCurve.WP
       TinyCurve.zeroSig TinyCurve.honestMsgHash TinyCurve.honestKey
     = Throws NoValidCandidateFound
     <-> forall i parity, 0 <= i < 8 -> parity = 0 \/ parity = 1 ->
           ~ satisfiesCheck TinyCurve.babyjubjub TinyCurve.WP
               TinyCurve.zeroSig TinyCurve.honestMsgHash TinyCurve.honestKey
               i parity).
Proof.
  intros [_ H].
  assert (Hthrow :
    getPublicInputsFromSignature TinyCurve.babyjubjub TinyCurve.WP
      TinyCurve.zeroSig TinyCurve.honestMsgHash TinyCurve.honestKey
    = Throws NoValidCandidateFound); [|vm_compute in Hthrow; discriminate].
  apply H. intros i parity Hi Hparity (c & Hc & _).
  assert (Hcases : i = 0 \/ i = 1 \/ i = 2 \/ i = 3 \/ i = 4 \/ i = 5 \/
                   i = 6 \/ i = 7) by lia.
  repeat destruct Hcases as [-> | Hcases]; try subst i;
    destruct Hparity as [-> | ->]; vm_compute in Hc; discriminate.
Qed.

(** On the small curve: a signature that does not fit its key sees all 16
    candidates passed over, and the signature with [r = 0] has the inversion
    of its first candidate fail. *)
Lemma no_valid_candidate_iff_all_passed_over_witness :
  getPublicInputsFromSignature TinyCurve.babyjubjub TinyCurve.WP
    TinyCurve.strangerSig TinyCurve.strangerMsgHash TinyCurve.strangerKey
  = Throws NoValidCandidateFound /\
  getPublicInputsFromSignature TinyCurve.babyjubjub TinyCurve.WP
    TinyCurve.zeroSig TinyCurve.honestMsgHash TinyCurve.honestKey
  = Throws (CollaboratorError DivisionByZero).
Proof.
  split.
  - apply (proj2 (proj1 (no_valid_candidate_iff_all_passed_over
                    TinyCurve.babyjubjub TinyCurve.WP TinyCurve.strangerSig
                    TinyCurve.strangerMsgHash TinyCurve.strangerKey))).
    intros i parity Hi Hparity.
    apply (candidate_None TinyCurve.babyjubjub TinyCurve.WP).
    assert (Hcases : i = 0 \/ i = 1 \/ i = 2 \/ i = 3 \/ i = 4 \/ i = 5 \/
                     i = 6 \/ i = 7) by (simpl in Hi; lia).
    repeat destruct Hcases as [-> | Hcases]; try subst i;
      destruct Hparity as [-> | ->]; vm_compute; reflexivity.
  - apply (proj1 (proj1 (proj2 (proj2
             (no_valid_candidate_iff_all_passed_over
                TinyCurve.babyjubjub TinyCurve.WP TinyCurve.zeroSig
                TinyCurve.honestMsgHash TinyCurve.honestKey)))
             0%nat 0 0 eq_refl
             (fun j i' parity' Hj _ => match Nat.nlt_0_r j Hj with end))).
    vm_compute. reflexivity.
Defined.

Lemma zero_r_inversion_error_propagates_witness :
  (0 < 8 /\ r TinyCurve.zeroSig = 0) /\
  ZqField.inv (ZqField.new TinyCurve.n) (r TinyCurve.zeroSig)
  = Raise DivisionByZero /\
  getPublicInputsFromSignature TinyCurve.babyjubjub TinyCurve.WP
    TinyCurve.zeroSig TinyCurve.honestMsgHash TinyCurve.honestKey
  = Throws (CollaboratorError DivisionByZero) /\
  getPublicInputsFromSignature TinyCurve.babyjubjub TinyCurve.WP
    TinyCurve.zeroSig TinyCurve.honestMsgHash TinyCurve.honestKey
  <> Throws NoValidCandidateFound.
Proof.
  assert (Hh : 0 < 8) by lia.
  assert (Hr : r TinyCurve.zeroSig = 0) by reflexivity.
  exact (conj (conj Hh Hr)
           (zero_r_inversion_error_propagates TinyCurve.curve TinyCurve.WP
              TinyCurve.p TinyCurve.n 8 TinyCurve.zeroSig
              TinyCurve.honestMsgHash TinyCurve.honestKey Hh Hr)).
Defined.

(** * Further properties of the Merkle accumulator *)

Section MerkleFurther.

Variable poseidon : Z -> Z -> Z.
Variable hashEdwardsPublicKey : EdwardsPoint -> Z.

Lemma levels_path_decodes n : forall i index layer path sibs,
  0 <= index < 2 ^ Z.of_nat n ->
  exists path',
    pathIndices (levels poseidon n i index layer path sibs) = path ++ path' /\
    Forall (fun bit => bit = 0 \/ bit = 1) path' /\
    decodePath path' = index.
Proof.
  induction n as [|n IH]; intros i index layer path sibs Hindex.
  - exists []. simpl in *. rewrite app_nil_r. repeat split; [constructor | lia].
  - cbn [levels]. cbv zeta.
    assert (Hhalf : 0 <= index / 2 < 2 ^ Z.of_nat n).
    { rewrite Nat2Z.inj_succ, Z.pow_succ_r in Hindex by lia.
      split; [apply Z.div_pos; lia | apply Z.div_lt_upper_bound; lia]. }
    destruct (IH (S i) (index / 2)
                (buildNextLayer poseidon (ZEROS !!! i) layer)
                (path ++ [Z.rem index 2])
                (sibs ++ [if (if Z.rem index 2 =? 0 then index + 1
                              else index - 1)
                             =? Z.of_nat (length layer)
                          then Some (ZEROS !!! i)
                          else js_get layer
                                 (if Z.rem index 2 =? 0 then index + 1
                                  else index - 1)]) Hhalf)
      as (path' & -> & Hbits & Hdecode).
    exists (Z.rem index 2 :: path'). rewrite <- app_assoc.
    split; [done|].
    rewrite Z.rem_mod_nonneg by lia.
    pose proof (Z.mod_pos_bound index 2 ltac:(lia)) as Hbit.
    split.
    + constructor; [lia | done].
    + cbn [decodePath fold_right]. fold (decodePath path').
      rewrite Hdecode. pose proof (Z.div_mod index 2 ltac:(lia)). lia.
Qed.

(** X1.  For every key list and every index from 0 to 255, inside the list
    or not, the path of the returned proof is the index in binary, least
    significant bit first: its entries are 0 or 1 and they decode back to
    the index. *)
Theorem path_is_index_in_binary pubKeys index :
  0 <= index < 256 ->
  exists proof,
    generateMerkleProof poseidon hashEdwardsPublicKey pubKeys index
    = Returns proof /\
    Forall (fun bit => bit = 0 \/ bit = 1) (pathIndices proof) /\
    decodePath (pathIndices proof) = index.
Proof.
  intros Hindex. eexists. split; [reflexivity|].
  destruct (levels_path_decodes 8 0 index
              (map hashEdwardsPublicKey pubKeys) [] [] Hindex)
    as (path' & Hpath & Hbits & Hdecode).
  unfold TREE_DEPTH. rewrite Hpath. done.
Qed.

Lemma levels_negative_index n : forall i index layer path sibs,
  index < 0 ->
  siblings (levels poseidon n i index layer path sibs)
  = sibs ++ repeat None n.
Proof.
  induction n as [|n IH]; intros i index layer path sibs Hneg.
  - simpl. by rewrite app_nil_r.
  - cbn [levels]. cbv zeta.
    assert (Hsib : (if Z.rem index 2 =? 0 then index + 1 else index - 1) < 0).
    { destruct (Z.eqb_spec (Z.rem index 2) 0) as [Heven | Hodd]; [|lia].
      assert (index <> -1) by (intros ->; discriminate Heven). lia. }
    replace ((if Z.rem index 2 =? 0 then index + 1 else index - 1)
             =? Z.of_nat (length layer)) with false
      by (symmetry; apply Z.eqb_neq; lia).
    unfold js_get at 1.
    replace ((if Z.rem index 2 =? 0 then index + 1 else index - 1) <? 0)
      with true by (symmetry; apply Z.ltb_lt; lia).
    rewrite IH by (apply Z.div_lt_upper_bound; lia).
    rewrite <- app_assoc. done.
Qed.

(** X2.  For every negative index the call returns a proof none of whose 8
    siblings is a node or a zero constant: every sibling read is out of
    bounds. *)
Theorem negative_index_has_no_siblings pubKeys index :
  index < 0 ->
  exists proof,
    generateMerkleProof poseidon hashEdwardsPublicKey pubKeys index
    = Returns proof /\
    siblings proof = repeat None 8.
Proof.
  intros Hneg. eexists. split; [reflexivity|].
  unfold TREE_DEPTH. by rewrite levels_negative_index.
Qed.

Lemma buildNextLayer_nil zero layer :
  buildNextLayer poseidon zero layer = [] <-> layer = [].
Proof. destruct layer as [|a [|b rest]]; split; done. Qed.

Lemma levels_root_absent n : forall i index layer path sibs,
  root (levels poseidon n i index layer path sibs) = None <-> layer = [].
Proof.
  induction n as [|n IH]; intros i index layer path sibs.
  - simpl. destruct layer; split; done.
  - cbn [levels]. cbv zeta. rewrite IH. apply buildNextLayer_nil.
Qed.

(** X3.  The returned root is absent exactly for the empty key list: with at
    least one key, whatever their number and whatever the index, the proof
    carries a root. *)
Theorem root_absent_iff_no_keys pubKeys index proof :
  generateMerkleProof poseidon hashEdwardsPublicKey pubKeys index
  = Returns proof ->
  root proof = None <-> pubKeys = [].
Proof.
  unfold generateMerkleProof. intros H.
  apply (f_equal (fun o => match o with
                           | Returns pf => root pf
                           | Throws _ => None
                           end)) in H.
  cbv beta iota in H. rewrite <- H, levels_root_absent.
  destruct pubKeys; split; done.
Qed.

(** A layer of even length is hashed pair by pair with no padding, so the
    part of the next layer it gives does not depend on what follows it. *)
Lemma buildNextLayer_app zero m : forall l1 l2,
  length l1 = (2 * m)%nat ->
  buildNextLayer poseidon zero (l1 ++ l2)
  = buildNextLayer poseidon zero l1 ++ buildNextLayer poseidon zero l2 /\
  length (buildNextLayer poseidon zero l1) = m.
Proof.
  induction m as [|m IH]; intros l1 l2 Hlen.
  - destruct l1; [done | simpl in Hlen; lia].
  - destruct l1 as [|a [|b l1]]; simpl in Hlen; try lia.
    destruct (IH l1 l2 ltac:(lia)) as [Happ Hlength].
    change (buildNextLayer poseidon zero ((a :: b :: l1) ++ l2))
      with (poseidon a b :: buildNextLayer poseidon zero (l1 ++ l2)).
    change (buildNextLayer poseidon zero (a :: b :: l1))
      with (poseidon a b :: buildNextLayer poseidon zero l1).
    rewrite Happ. simpl. by rewrite Hlength.
Qed.

Lemma levels_root_prefix n : forall i index index' l1 l2 path path' sibs sibs',
  length l1 = (2 ^ n)%nat ->
  root (levels poseidon n i index (l1 ++ l2) path sibs)
  = root (levels poseidon n i index' l1 path' sibs').
Proof.
  induction n as [|n IH]; intros i index index' l1 l2 path path' sibs sibs' Hlen.
  - destruct l1 as [|a [|b l1]]; simpl in Hlen; try lia. done.
  - cbn [levels]. cbv zeta.
    destruct (buildNextLayer_app (ZEROS !!! i) (2 ^ n) l1 l2) as [-> Hlength].
    { rewrite Hlen. simpl. lia. }
    by apply IH.
Qed.

(** X4.  The tree holds 256 leaves: for a key list of 256 keys or more the
    root is the root of its first 256 keys, and the keys after them have no
    influence on it. *)
Theorem root_ignores_keys_beyond_256 pubKeys index index' proof proof' :
  (256 <= length pubKeys)%nat ->
  generateMerkleProof poseidon hashEdwardsPublicKey pubKeys index
  = Returns proof ->
  generateMerkleProof poseidon hashEdwardsPublicKey (take 256 pubKeys) index'
  = Returns proof' ->
  root proof = root proof'.
Proof.
  unfold generateMerkleProof. intros Hlen H H'.
  apply (f_equal (fun o => match o with
                           | Returns pf => root pf
                           | Throws _ => None
                           end)) in H, H'.
  cbv beta iota in H, H'. rewrite <- H, <- H'.
  rewrite <- (take_drop 256 pubKeys) at 1. rewrite map_app.
  apply levels_root_prefix.
  rewrite length_map, length_take. change (2 ^ TREE_DEPTH)%nat with 256%nat.
  lia.
Qed.

(** X5.  With an odd number of keys below 256, the proof returned for the
    index just past the last key is a valid inclusion proof of the value 0,
    the first zero constant: folding its siblings from 0 gives the root. *)
Theorem odd_key_count_proves_zero_leaf pubKeys :
  Nat.Odd (length pubKeys) ->
  (length pubKeys < 256)%nat ->
  exists proof rt,
    generateMerkleProof poseidon hashEdwardsPublicKey pubKeys
      (Z.of_nat (length pubKeys)) = Returns proof /\
    root proof = Some rt /\
    recomputeRoot poseidon 0 (pathIndices proof) (siblings proof) = Some rt.
Proof.
  intros [m Hm] Hlt.
  set (leaves := map hashEdwardsPublicKey pubKeys).
  assert (Hleaves : length leaves = S (2 * m))
    by (unfold leaves; rewrite length_map; lia).
  destruct (lookup_lt_is_Some_2 leaves (2 * m) ltac:(lia)) as [node Hnode].
  pose proof (buildNextLayer_lookup poseidon 0 leaves m node Hnode) as Hnext.
  rewrite (lookup_ge_None_2 leaves (S (2 * m))) in Hnext by lia.
  destruct (levels_recompute poseidon 7 1 (Z.of_nat m)
              (buildNextLayer poseidon 0 leaves) [1] [Some node]
              (poseidon node 0)) as (path' & sibs' & rt & Hproof & Hrec).
  { change (2 ^ Z.of_nat 7) with 128. lia. }
  { apply js_get_Some. split; [lia|]. by rewrite Nat2Z.id. }
  exists (mkMerkleProof (Some rt) (1 :: path') (Some node :: sibs')), rt.
  split; [|done].
  unfold generateMerkleProof, TREE_DEPTH. fold leaves.
  apply (f_equal Returns).
  cbn [levels]. cbv zeta. rewrite Hleaves, Hm.
  replace (Z.of_nat (2 * m + 1)) with (2 * Z.of_nat m + 1) by lia.
  replace (Z.of_nat (S (2 * m))) with (2 * Z.of_nat m + 1) by lia.
  replace (Z.rem (2 * Z.of_nat m + 1) 2) with 1
    by (rewrite Z.rem_mod_nonneg by lia; clear; Z.div_mod_to_equations; lia).
  replace ((2 * Z.of_nat m + 1) / 2) with (Z.of_nat m)
    by (clear; Z.div_mod_to_equations; lia).
  cbn [Z.eqb]. cbv iota.
  replace (2 * Z.of_nat m + 1 - 1 =? 2 * Z.of_nat m + 1) with false
    by (symmetry; apply Z.eqb_neq; lia).
  replace (js_get leaves (2 * Z.of_nat m + 1 - 1)) with (Some node).
  2:{ symmetry. apply js_get_Some. split; [lia|].
      replace (Z.to_nat (2 * Z.of_nat m + 1 - 1)) with (2 * m)%nat by lia.
      done. }
  exact Hproof.
Qed.

End MerkleFurther.

(** * Further properties of the signature input deriver *)

Lemma forEach_ext {A B} (xs : list A) (f g : A -> outcome (option B)) :
  (forall x, f x = g x) -> forEach xs f = forEach xs g.
Proof.
  intros Hfg. induction xs as [|x xs IH]; [done|].
  simpl. by rewrite Hfg, IH.
Qed.

Section DeriverFurther.

Variable babyjubjub : BabyJubJub.
Variable WP : PointModel (ec babyjubjub).

(** X6.  The function throws a collaborator error exactly when evaluating
    some candidate raises it while every candidate before it in the order
    was passed over: the error ends the search, and the candidates after it
    are not tried, whether or not one of them satisfies the check. *)
Theorem collaborator_error_ends_search sig msgHash pubKey kind :
  getPublicInputsFromSignature babyjubjub WP sig msgHash pubKey
  = Throws (CollaboratorError kind)
  <-> exists k i parity,
        candidates (cofactor babyjubjub) !! k = Some (i, parity) /\
        candidate babyjubjub WP sig msgHash pubKey i parity
        = Throws (CollaboratorError kind) /\
        forall j i' parity', (j < k)%nat ->
          candidates (cofactor babyjubjub) !! j = Some (i', parity') ->
          passedOver babyjubjub WP sig msgHash pubKey i' parity'.
Proof.
  rewrite getPublicInputsFromSignature_scan.
  set (body := fun c : Z * Z => _).
  assert (Hfinish : finish (forEach (candidates (cofactor babyjubjub)) body)
                    = Throws (CollaboratorError kind)
                    <-> forEach (candidates (cofactor babyjubjub)) body
                        = Throws (CollaboratorError kind)).
  { destruct (forEach _ body) as [[?|]|]; simpl; split; congruence. }
  rewrite Hfinish,
    (forEach_decided _ body (Throws (CollaboratorError kind))) by discriminate.
  split.
  - intros (k & [i parity] & Hk & Hbody & Hbefore).
    exists k, i, parity. repeat split; [done.. |].
    intros j i' parity' Hj Hj'. apply candidate_None.
    exact (Hbefore j (i', parity') Hj Hj').
  - intros (k & i & parity & Hk & Hbody & Hbefore).
    exists k, (i, parity). repeat split; [done.. |].
    intros j [i' parity'] Hj Hj'. subst body. cbn [fst snd].
    apply candidate_None. exact (Hbefore j i' parity' Hj Hj').
Qed.

(** X7.  What one candidate returns depends on the signature only through
    [r]: two signatures with the same [r] that are both accepted at the same
    candidate for the same message hash give the same [R], [T] and [U],
    whatever their [s] and whatever the public keys. *)
Theorem inputs_do_not_depend_on_s
    sig sig' msgHash pubKey pubKey' i parity inputs inputs' :
  r sig = r sig' ->
  candidate babyjubjub WP sig msgHash pubKey i parity
  = Returns (Some inputs) ->
  candidate babyjubjub WP sig' msgHash pubKey' i parity
  = Returns (Some inputs') ->
  inputs = inputs'.
Proof.
  intros Hr H H'.
  apply candidate_Some in H as (c & Rw & Hc & _ & HR & HR' & HT' & HU').
  apply candidate_Some in H' as (c' & Rw' & Hc' & _ & HS & HS' & HV' & HW').
  apply recoverAndCheck_Some in Hc as (rInv & Hinv & Hpoint & HT & HU & _).
  apply recoverAndCheck_Some in Hc' as (rInv' & Hinv' & Hpoint' & HV & HW & _).
  cbv zeta in *.
  assert (Hx : candidateX babyjubjub sig i = candidateX babyjubjub sig' i)
    by (unfold candidateX; by rewrite Hr).
  rewrite Hx in *.
  assert (rInv = rInv') as <- by congruence.
  assert (ecR c = ecR c') as HecR by congruence.
  rewrite <- HecR in *.
  assert (Rw = Rw') as <- by congruence.
  assert (Tw c = Tw c') as HTw by congruence.
  assert (Uw c = Uw c') as HUw by congruence.
  rewrite <- HTw, <- HUw in *.
  destruct inputs, inputs'; simpl in *. f_equal; congruence.
Qed.

End DeriverFurther.

(** X8.  The error with which [pointFromX] rejects an x-coordinate never
    reaches the result: replacing [pointFromX] by one that recovers the same
    points and fails on the same inputs, with any other errors, changes
    nothing in what the function returns or throws. *)
Theorem recovery_error_is_discarded
    curve (WP : PointModel curve) pointFromX' Fbase Fscalar h sig msgHash pubKey :
  (forall x parity,
     sameRecovery (Elliptic.pointFromX curve x parity) (pointFromX' x parity))
  ->
  getPublicInputsFromSignature
    (mkBabyJubJub (withPointFromX curve pointFromX') Fbase Fscalar h)
    (withPointFromX_WP curve pointFromX' WP) sig msgHash pubKey
  = getPublicInputsFromSignature (mkBabyJubJub curve Fbase Fscalar h) WP
      sig msgHash pubKey.
Proof.
  intros Hsame. unfold getPublicInputsFromSignature. f_equal.
  cbn [cofactor]. apply forEach_ext. intros i.
  apply forEach_ext. intros parity.
  unfold candidate. f_equal.
  unfold recoverAndCheck, candidateX. cbn [Fs Fb ec].
  destruct (ZqField.inv Fscalar _) as [rInv|]; [|done]. simpl bind.
  specialize (Hsame (ZqField.add Fbase (r sig)
                       (ZqField.mul Fbase i (ZqField.p Fscalar)))
                parity).
  unfold withPointFromX at 1. cbn [Elliptic.pointFromX].
  destruct (Elliptic.pointFromX curve _ parity) as [P|],
           (pointFromX' _ parity) as [Q|]; simpl in Hsame; try done.
  by subst Q.
Qed.

(** ** A signature made the standard way satisfies the check *)

#[local] Existing Instances eqm_setoid Zplus_eqm Zminus_eqm Zmult_eqm Zopp_eqm.

(** The scalar of the check point: [s * (k / x) - m / x = sk] modulo [n] when
    [k * s = m + x * sk], the signing equation. *)
Lemma check_scalar n k sv m x sk rInv :
  1 < n ->
  (rInv * x) mod n = 1 ->
  (k * sv) mod n = (m + x * sk) mod n ->
  0 <= sk < n ->
  (((k * rInv) mod n * sv) mod n + (- (rInv * m)) mod n) mod n = sk.
Proof.
  intros Hn Hinv Hsign Hsk.
  enough (Hcong : eqm n (((k * rInv) mod n * sv) mod n
                         + (- (rInv * m)) mod n) sk)
    by (unfold eqm in Hcong; by rewrite Hcong, Z.mod_small).
  assert (H1 : eqm n (rInv * x) 1)
    by (unfold eqm; rewrite Hinv, Z.mod_small; lia).
  assert (H2 : eqm n (k * sv) (m + x * sk)) by exact Hsign.
  rewrite !Zmod_eqm.
  replace (k * rInv * sv + - (rInv * m))
    with (rInv * (k * sv) + - (rInv * m)) by ring.
  rewrite H2.
  replace (rInv * (m + x * sk) + - (rInv * m)) with (rInv * x * sk) by ring.
  rewrite H1. by rewrite Z.mul_1_l.
Qed.

(** A multiple of an invertible scalar is zero modulo [n] only if the
    factor is. *)
Lemma scaled_nonzero n rInv x c :
  1 < n -> (rInv * x) mod n = 1 -> c mod n <> 0 -> (c * rInv) mod n <> 0.
Proof.
  intros Hn Hinv Hc Hzero. apply Hc.
  assert (H1 : eqm n (rInv * x) 1)
    by (unfold eqm; rewrite Hinv, Z.mod_small; lia).
  assert (H0 : eqm n (c * rInv) 0)
    by (unfold eqm; by rewrite Hzero, Zmod_0_l).
  assert (Hcong : eqm n c 0).
  { transitivity (c * (rInv * x)).
    - rewrite H1. by rewrite Z.mul_1_r.
    - replace (c * (rInv * x)) with (c * rInv * x) by ring.
      rewrite H0. by rewrite Z.mul_0_l. }
  unfold eqm in Hcong. by rewrite Hcong, Zmod_0_l.
Qed.

(** X9.  Completeness of the check.  Let the multiples of the generator
    form a group of prime order [n] on which [fromEllipticPoint] is defined
    away from the identity.  For a signature made the standard way with
    secret key [sk] and nonce [k], that is [k * s = msgHash + x * sk] modulo
    [n] for the x-coordinate [x] of the candidate, with [msgHash] and [x] not
    zero modulo [n]: if the candidate recovers the nonce point [k * G], then
    it satisfies the check against the public key [sk * G], and the function
    does not fail with [NoValidCandidateFound]. *)
Theorem standard_signature_satisfies_check
    curve (WP : PointModel curve) pb n h sig msgHash pubKey i parity k sk :
  let babyjubjub := mkBabyJubJub curve (ZqField.new pb) (ZqField.new n) h in
  let G := Elliptic.g curve in
  let x := candidateX babyjubjub sig i in
  Z.prime n ->
  0 <= i < h -> parity = 0 \/ parity = 1 ->
  (forall u v, 0 <= u < n -> 0 <= v < n ->
     Elliptic.mul curve (Elliptic.mul curve G u) v
     = Elliptic.mul curve G ((u * v) mod n)) ->
  (forall u v, 0 <= u < n -> 0 <= v < n ->
     Elliptic.add curve (Elliptic.mul curve G u) (Elliptic.mul curve G v)
     = Elliptic.mul curve G ((u + v) mod n)) ->
  (forall u, 0 < u < n ->
     exists w, fromEllipticPoint WP (Elliptic.mul curve G u) = Ok w) ->
  0 < k < n -> 0 < sk < n -> 0 <= s sig < n ->
  msgHash mod n <> 0 -> x mod n <> 0 ->
  Elliptic.pointFromX curve x parity = Ok (Elliptic.mul curve G k) ->
  (k * s sig) mod n = (msgHash + x * sk) mod n ->
  fromEllipticPoint WP (Elliptic.mul curve G sk) = Ok pubKey ->
  satisfiesCheck babyjubjub WP sig msgHash pubKey i parity /\
  getPublicInputsFromSignature babyjubjub WP sig msgHash pubKey
  <> Throws NoValidCandidateFound.
Proof.
  intros babyjubjub G x Hn Hi Hparity Hmul Hadd Hfinite Hk Hsk Hs Hm Hx
    Hpoint Hsign Hkey.
  enough (Hcheck : satisfiesCheck babyjubjub WP sig msgHash pubKey i parity).
  { split; [done|]. intros Hnone.
    pose proof (proj1 (getPublicInputsFromSignature_NoValidCandidateFound
                         babyjubjub WP sig msgHash pubKey) Hnone
                  i parity Hi Hparity) as Hpassed.
    apply (candidate_None babyjubjub WP) in Hpassed as Hnone'.
    clear Hnone Hpassed. rename Hnone' into Hnone.
    destruct Hcheck as (c & Hc & Heq).
    destruct Hnone as [Hnone | (c' & Hc' & Hneq)]; congruence. }
  pose proof (Z.prime_ge_2 n Hn) as Hn2.
  set (rInv := Z.invmod x n).
  assert (Hinv : ZqField.inv (ZqField.new n) x = Ok rInv)
    by (by apply inv_new_Ok).
  assert (Hinverse : (rInv * x) mod n = 1) by (by apply Z.invmod_prime).
  assert (HrInv : 0 <= rInv < n) by (apply Z.mod_pos_bound; lia).
  set (t := (k * rInv) mod n).
  set (u := (- (rInv * msgHash)) mod n).
  assert (Ht : 0 < t < n).
  { pose proof (Z.mod_pos_bound (k * rInv) n ltac:(lia)).
    pose proof (scaled_nonzero n rInv x k ltac:(lia) Hinverse
                  ltac:(rewrite Z.mod_small; lia)).
    subst t. lia. }
  assert (Hu : 0 < u < n).
  { pose proof (Z.mod_pos_bound (- (rInv * msgHash)) n ltac:(lia)).
    pose proof (scaled_nonzero n rInv x msgHash ltac:(lia) Hinverse Hm)
      as Hnz.
    assert (u <> 0); [|lia]. subst u. intros Hzero. apply Hnz.
    assert (H0 : eqm n (- (rInv * msgHash)) 0)
      by (unfold eqm; by rewrite Hzero, Zmod_0_l).
    assert (Hcong : eqm n (msgHash * rInv) 0).
    { replace (msgHash * rInv) with (- - (rInv * msgHash)) by ring.
      by rewrite H0. }
    unfold eqm in Hcong. by rewrite Hcong, Zmod_0_l. }
  destruct (Hfinite t Ht) as [Tw HTw].
  destruct (Hfinite u Hu) as [Uw HUw].
  exists (mkChecked (Elliptic.mul curve G k) Tw Uw pubKey).
  split; [|by apply equals_eq].
  subst babyjubjub. unfold recoverAndCheck. cbn [Fs ec]. fold x.
  rewrite Hinv. cbn [call bind]. rewrite Hpoint.
  rewrite neg_mul_new. fold G u.
  rewrite (Hmul k rInv) by lia. fold t.
  rewrite HTw, HUw. cbn [call bind].
  rewrite (Hmul t (s sig)) by lia.
  rewrite Hadd by (lia || (apply Z.mod_pos_bound; lia)).
  subst t u. rewrite (check_scalar n k (s sig) msgHash x sk rInv)
    by (lia || done).
  rewrite Hkey. reflexivity.
Qed.

Lemma TinyCurve_subgroup :
  (forall u v, 0 <= u < TinyCurve.n -> 0 <= v < TinyCurve.n ->
     TinyCurve.mul (TinyCurve.mul TinyCurve.g u) v
     = TinyCurve.mul TinyCurve.g ((u * v) mod TinyCurve.n)) /\
  (forall u v, 0 <= u < TinyCurve.n -> 0 <= v < TinyCurve.n ->
     TinyCurve.add (TinyCurve.mul TinyCurve.g u) (TinyCurve.mul TinyCurve.g v)
     = TinyCurve.mul TinyCurve.g ((u + v) mod TinyCurve.n)) /\
  (forall u, 0 < u < TinyCurve.n ->
     exists w, TinyCurve.fromEllipticPoint (TinyCurve.mul TinyCurve.g u)
               = Ok w).
Proof.
  unfold TinyCurve.n.
  assert (Hcases : forall u, 0 <= u < 11 ->
            u = 0 \/ u = 1 \/ u = 2 \/ u = 3 \/ u = 4 \/ u = 5 \/ u = 6 \/
            u = 7 \/ u = 8 \/ u = 9 \/ u = 10) by (intros; lia).
  repeat split.
  - intros u v Hu%Hcases Hv%Hcases.
    repeat destruct Hu as [-> | Hu]; try subst u;
      repeat destruct Hv as [-> | Hv]; try subst v; vm_compute; reflexivity.
  - intros u v Hu%Hcases Hv%Hcases.
    repeat destruct Hu as [-> | Hu]; try subst u;
      repeat destruct Hv as [-> | Hv]; try subst v; vm_compute; reflexivity.
  - intros u Hu. assert (Hu' : 0 <= u < 11) by lia.
    apply Hcases in Hu'.
    repeat destruct Hu' as [-> | Hu']; try subst u; try lia;
      eexists; vm_compute; reflexivity.
Qed.

(** ** The curve constants *)

#[local] Instance Fp_proper p : Proper (eqm p ==> eqm p) (Fp p).
Proof. intros u v Huv. unfold Fp. by rewrite !Zmod_eqm. Qed.

Lemma Fp_eqm p u : eqm p (Fp p u) u.
Proof. apply Zmod_eqm. Qed.

Lemma eqm_1_not_0 p u v : 1 < p -> (u * v) mod p = 1 -> v mod p <> 0.
Proof.
  intros Hp Huv Hv.
  assert (H : eqm p (u * v) 0).
  { assert (Hv' : eqm p v 0) by (unfold eqm; by rewrite Hv, Zmod_0_l).
    rewrite Hv'. by rewrite Z.mul_0_r. }
  unfold eqm in H. rewrite Huv, Zmod_0_l in H. lia.
Qed.

Lemma three_invertible p : Z.prime p -> p <> 3 -> 3 mod p <> 0.
Proof.
  intros Hp Hp3 Hzero. pose proof (Z.prime_ge_2 p Hp).
  apply Z.mod_divide in Hzero; [|lia].
  pose proof (Z.divide_pos_le p 3 ltac:(lia) Hzero).
  assert (p = 2) as -> by lia. destruct Hzero as [q Hq]. lia.
Qed.

(** X10.  For a prime [p] other than 3, [montgomery_to_weierstrass] returns
    two field elements [a] and [b] that are the coefficients of the short
    Weierstrass form of the Montgomery curve [y^2 = x^3 + A x^2 + x]: the
    shift of x by [A / 3] sends every point of the Montgomery curve to a
    point of [y^2 = x^3 + a x + b]. *)
Theorem montgomery_to_weierstrass_curve A p :
  Z.prime p -> p <> 3 ->
  exists a b,
    montgomery_to_weierstrass A p = Returns (a, b) /\
    (0 <= a < p /\ 0 <= b < p) /\
    forall x y,
      (y * y) mod p = (x * x * x + A * (x * x) + x) mod p ->
      let X := x + A * Z.invmod 3 p in
      (y * y) mod p = (X * X * X + a * X + b) mod p.
Proof.
  intros Hp Hp3. pose proof (Z.prime_ge_2 p Hp) as Hp2.
  pose proof (three_invertible p Hp Hp3) as H3.
  pose proof (Z.invmod_prime 3 p Hp H3) as Ht.
  assert (Ht' : eqm p (3 * Z.invmod 3 p) 1)
    by (unfold eqm; rewrite Z.mul_comm, Ht, Z.mod_small; lia).
  assert (Ht3 : eqm p (27 * (Z.invmod 3 p * Z.invmod 3 p * Z.invmod 3 p)) 1).
  { replace (27 * (Z.invmod 3 p * Z.invmod 3 p * Z.invmod 3 p))
      with ((3 * Z.invmod 3 p) * (3 * Z.invmod 3 p) * (3 * Z.invmod 3 p))
      by ring.
    rewrite Ht'. reflexivity. }
  assert (H27 : 27 mod p <> 0).
  { apply (eqm_1_not_0 p (Z.invmod 3 p * Z.invmod 3 p * Z.invmod 3 p));
      [lia|].
    unfold eqm in Ht3. rewrite Z.mul_comm, Ht3, Z.mod_small; lia. }
  pose proof (Z.invmod_prime 27 p Hp H27) as Ht27.
  assert (Ht27' : eqm p (27 * Z.invmod 27 p) 1)
    by (unfold eqm; rewrite Z.mul_comm, Ht27, Z.mod_small; lia).
  assert (Hcube : eqm p (Z.invmod 27 p)
                    (Z.invmod 3 p * Z.invmod 3 p * Z.invmod 3 p)).
  { transitivity
      (Z.invmod 27 p
       * (27 * (Z.invmod 3 p * Z.invmod 3 p * Z.invmod 3 p))).
    - rewrite Ht3. by rewrite Z.mul_1_r.
    - replace (Z.invmod 27 p
               * (27 * (Z.invmod 3 p * Z.invmod 3 p * Z.invmod 3 p)))
        with (27 * Z.invmod 27 p
              * (Z.invmod 3 p * Z.invmod 3 p * Z.invmod 3 p)) by ring.
      rewrite Ht27'. by rewrite Z.mul_1_l. }
  assert (Hz : eqm p (3 * Z.invmod 3 p - 1) 0) by (by rewrite Ht').
  eexists _, _. split.
  { unfold montgomery_to_weierstrass, GF_div. cbv zeta.
    destruct (Z.eqb_spec (Fp p 3) 0) as [|_]; [done|].
    destruct (Z.eqb_spec (Fp p 27) 0) as [|_]; [done|].
    reflexivity. }
  split; [split; apply Z.mod_pos_bound; lia|].
  intros x y Hxy X. rewrite Hxy. subst X.
  match goal with |- ?l mod p = ?u mod p => change (eqm p l u) end.
  change (Z.invmod (Fp p 3) p) with (Z.invmod (3 mod p) p).
  change (Z.invmod (Fp p 27) p) with (Z.invmod (27 mod p) p).
  rewrite !Z.invmod_mod_l.
  rewrite (Z.pow_2_r (Fp p A)).
  replace (Fp p A ^ 3) with (Fp p A * Fp p A * Fp p A) by ring.
  clear Ht Ht3 H27 Ht27 Ht27' Ht'.
  revert Hcube Hz. generalize (Z.invmod 27 p) (Z.invmod 3 p).
  intros t27 t Hcube Hz.
  repeat match goal with
         | |- context [Fp p ?u] => rewrite (Fp_eqm p u)
         end.
  rewrite Hcube.
  match goal with
  | |- eqm p ?l ?u =>
      replace u
        with (l + (3 * t - 1)
                  * (A * (x * x) + t * (A * A) * x + x
                     + A * A * A * (t * t) - 3 * A * (t * t))) by ring
  end.
  rewrite Hz. by rewrite Z.mul_0_l, Z.add_0_r.
Qed.

(** The model gives, for the parameter and the prime of the script, the two
    coefficients that the script's closing comment records; over the field
    of 3 elements the division by three raises. *)
Example montgomery_to_weierstrass_recorded_output :
  montgomery_to_weierstrass BabyJubjub_A BabyJubjub_p
  = Returns (BabyJubjub_a, BabyJubjub_b) /\
  (forall A, montgomery_to_weierstrass A 3
             = Throws (CollaboratorError DivisionByZero)).
Proof. split; [vm_compute; reflexivity | reflexivity]. Qed.

(** ** The further properties on concrete inputs *)

Lemma TinyCurve_p_prime : Z.prime TinyCurve.p.
Proof.
  split; [reflexivity|]. intros k Hk Hdiv. unfold TinyCurve.p in *.
  apply Z.mod_divide in Hdiv; [|lia].
  assert (Hall : forallb (fun k => negb (79 mod k =? 0)) (seqZ 2 77) = true)
    by (vm_compute; reflexivity).
  rewrite forallb_forall in Hall.
  specialize (Hall k). rewrite Hdiv in Hall.
  assert (Hin : In k (seqZ 2 77)).
  { apply list_elem_of_In, elem_of_seqZ. lia. }
  specialize (Hall Hin). discriminate.
Qed.

Lemma path_is_index_in_binary_witness :
  0 <= 5 < 256 /\
  exists proof,
    generateMerkleProof toyHash toyLeaf threeKeys 5 = Returns proof /\
    Forall (fun bit => bit = 0 \/ bit = 1) (pathIndices proof) /\
    decodePath (pathIndices proof) = 5.
Proof.
  assert (H : 0 <= 5 < 256) by lia.
  exact (conj H (path_is_index_in_binary toyHash toyLeaf threeKeys 5 H)).
Defined.

Lemma negative_index_has_no_siblings_witness :
  -7 < 0 /\
  exists proof,
    generateMerkleProof toyHash toyLeaf threeKeys (-7) = Returns proof /\
    siblings proof = repeat None 8.
Proof.
  assert (H : -7 < 0) by lia.
  exact (conj H (negative_index_has_no_siblings toyHash toyLeaf threeKeys
                   (-7) H)).
Defined.

Lemma root_absent_iff_no_keys_witness :
  generateMerkleProof toyHash toyLeaf threeKeys 1
  = Returns (levels toyHash 8 0 1 (map toyLeaf threeKeys) [] []) /\
  (root (levels toyHash 8 0 1 (map toyLeaf threeKeys) [] []) = None
   <-> threeKeys = []).
Proof.
  assert (H : generateMerkleProof toyHash toyLeaf threeKeys 1
              = Returns (levels toyHash 8 0 1 (map toyLeaf threeKeys) [] []))
    by reflexivity.
  exact (conj H (root_absent_iff_no_keys toyHash toyLeaf threeKeys 1 _ H)).
Defined.

Lemma root_ignores_keys_beyond_256_witness :
  (256 <= length TinyInputs.manyKeys)%nat /\
  root (levels toyHash 8 0 299 (map toyLeaf TinyInputs.manyKeys) [] [])
  = root (levels toyHash 8 0 0
            (map toyLeaf (take 256 TinyInputs.manyKeys)) [] []).
Proof.
  assert (Hlen : (256 <= length TinyInputs.manyKeys)%nat)
    by (vm_compute; lia).
  assert (H : generateMerkleProof toyHash toyLeaf TinyInputs.manyKeys 299
              = Returns (levels toyHash 8 0 299
                           (map toyLeaf TinyInputs.manyKeys) [] []))
    by reflexivity.
  assert (H' : generateMerkleProof toyHash toyLeaf
                 (take 256 TinyInputs.manyKeys) 0
               = Returns (levels toyHash 8 0 0
                            (map toyLeaf (take 256 TinyInputs.manyKeys))
                            [] []))
    by reflexivity.
  exact (conj Hlen
           (root_ignores_keys_beyond_256 toyHash toyLeaf TinyInputs.manyKeys
              299 0 _ _ Hlen H H')).
Defined.

Lemma odd_key_count_proves_zero_leaf_witness :
  (Nat.Odd (length threeKeys) /\ (length threeKeys < 256)%nat) /\
  exists proof rt,
    generateMerkleProof toyHash toyLeaf threeKeys
      (Z.of_nat (length threeKeys)) = Returns proof /\
    root proof = Some rt /\
    recomputeRoot toyHash 0 (pathIndices proof) (siblings proof) = Some rt.
Proof.
  assert (Hodd : Nat.Odd (length threeKeys)) by (exists 1%nat; reflexivity).
  assert (Hlt : (length threeKeys < 256)%nat) by (simpl; lia).
  exact (conj (conj Hodd Hlt)
           (odd_key_count_proves_zero_leaf toyHash toyLeaf threeKeys
              Hodd Hlt)).
Defined.

(** On the small curve the check point of the thirteenth candidate of the
    unlucky input is the point at infinity: the function throws that error
    although the fourteenth candidate satisfies the check. *)
Lemma collaborator_error_ends_search_witness :
  getPublicInputsFromSignature TinyCurve.babyjubjub TinyCurve.WP
    TinyInputs.unluckySig TinyInputs.unluckyMsgHash TinyInputs.unluckyKey
  = Throws (CollaboratorError PointAtInfinity) /\
  satisfiesCheck TinyCurve.babyjubjub TinyCurve.WP
    TinyInputs.unluckySig TinyInputs.unluckyMsgHash TinyInputs.unluckyKey 6 1.
Proof.
  split.
  - apply (proj2 (collaborator_error_ends_search TinyCurve.babyjubjub
                    TinyCurve.WP TinyInputs.unluckySig
                    TinyInputs.unluckyMsgHash TinyInputs.unluckyKey
                    PointAtInfinity)).
    exists 12%nat, 6, 0. split; [reflexivity|].
    split; [vm_compute; reflexivity|].
    intros j i' parity' Hj Hc.
    do 12 (destruct j as [|j];
           [injection Hc as <- <-;
            apply (candidate_None TinyCurve.babyjubjub TinyCurve.WP);
            vm_compute; reflexivity|]).
    lia.
  - eexists. split; [vm_compute; reflexivity | reflexivity].
Defined.

Lemma inputs_do_not_depend_on_s_witness :
  (r TinyCurve.honestSig = r (mkSignature 3 5) /\
   candidate TinyCurve.babyjubjub TinyCurve.WP TinyCurve.honestSig 1
     TinyCurve.honestKey 6 1
   = Returns (Some (mkPublicInputs (mkEdwards 7 26) (mkEdwards 14 7)
                      (mkEdwards 50 77))) /\
   candidate TinyCurve.babyjubjub TinyCurve.WP (mkSignature 3 5) 1
     (mkWeierstrass 69 17) 6 1
   = Returns (Some (mkPublicInputs (mkEdwards 7 26) (mkEdwards 14 7)
                      (mkEdwards 50 77)))) /\
  mkPublicInputs (mkEdwards 7 26) (mkEdwards 14 7) (mkEdwards 50 77)
  = mkPublicInputs (mkEdwards 7 26) (mkEdwards 14 7) (mkEdwards 50 77).
Proof.
  assert (Hr : r TinyCurve.honestSig = r (mkSignature 3 5)) by reflexivity.
  assert (H1 : candidate TinyCurve.babyjubjub TinyCurve.WP
                 TinyCurve.honestSig 1 TinyCurve.honestKey 6 1
               = Returns (Some (mkPublicInputs (mkEdwards 7 26)
                                  (mkEdwards 14 7) (mkEdwards 50 77))))
    by (vm_compute; reflexivity).
  assert (H2 : candidate TinyCurve.babyjubjub TinyCurve.WP
                 (mkSignature 3 5) 1 (mkWeierstrass 69 17) 6 1
               = Returns (Some (mkPublicInputs (mkEdwards 7 26)
                                  (mkEdwards 14 7) (mkEdwards 50 77))))
    by (vm_compute; reflexivity).
  exact (conj (conj Hr (conj H1 H2))
           (inputs_do_not_depend_on_s TinyCurve.babyjubjub TinyCurve.WP
              TinyCurve.honestSig (mkSignature 3 5) 1 TinyCurve.honestKey
              (mkWeierstrass 69 17) 6 1 _ _ Hr H1 H2)).
Defined.

Lemma recovery_error_is_discarded_witness :
  (forall x parity,
     sameRecovery (TinyCurve.pointFromX x parity)
       (TinyInputs.pointFromX' x parity)) /\
  getPublicInputsFromSignature
    (mkBabyJubJub (withPointFromX TinyCurve.curve TinyInputs.pointFromX')
       (ZqField.new TinyCurve.p) (ZqField.new TinyCurve.n) 8)
    (withPointFromX_WP TinyCurve.curve TinyInputs.pointFromX' TinyCurve.WP)
    TinyCurve.honestSig TinyCurve.honestMsgHash TinyCurve.honestKey
  = getPublicInputsFromSignature TinyCurve.babyjubjub TinyCurve.WP
      TinyCurve.honestSig TinyCurve.honestMsgHash TinyCurve.honestKey.
Proof.
  assert (Hsame : forall x parity,
            sameRecovery (TinyCurve.pointFromX x parity)
              (TinyInputs.pointFromX' x parity)).
  { intros x parity. unfold TinyInputs.pointFromX'.
    destruct (TinyCurve.pointFromX x parity); simpl; done. }
  exact (conj Hsame
           (recovery_error_is_discarded TinyCurve.curve TinyCurve.WP
              TinyInputs.pointFromX' (ZqField.new TinyCurve.p)
              (ZqField.new TinyCurve.n) 8 TinyCurve.honestSig
              TinyCurve.honestMsgHash TinyCurve.honestKey Hsame)).
Defined.

(** The honest signature of the small curve: secret key 2, nonce 6, found at
    the candidate [i = 6] with parity 1, whose x-coordinate is 69. *)
Lemma standard_signature_satisfies_check_witness :
  satisfiesCheck TinyCurve.babyjubjub TinyCurve.WP TinyCurve.honestSig
    TinyCurve.honestMsgHash TinyCurve.honestKey 6 1 /\
  getPublicInputsFromSignature TinyCurve.babyjubjub TinyCurve.WP
    TinyCurve.honestSig TinyCurve.honestMsgHash TinyCurve.honestKey
  <> Throws NoValidCandidateFound.
Proof.
  destruct TinyCurve_subgroup as (Hmul & Hadd & Hfinite).
  apply (standard_signature_satisfies_check TinyCurve.curve TinyCurve.WP
           TinyCurve.p TinyCurve.n 8 TinyCurve.honestSig
           TinyCurve.honestMsgHash TinyCurve.honestKey 6 1 6 2
           TinyCurve_n_prime);
    try exact Hmul; try exact Hadd; try exact Hfinite;
    try (vm_compute; intuition congruence).
Defined.

Lemma montgomery_to_weierstrass_curve_witness :
  (Z.prime TinyCurve.p /\ TinyCurve.p <> 3) /\
  exists a b,
    montgomery_to_weierstrass TinyCurve.A TinyCurve.p = Returns (a, b) /\
    (0 <= a < TinyCurve.p /\ 0 <= b < TinyCurve.p) /\
    forall x y,
      (y * y) mod TinyCurve.p
      = (x * x * x + TinyCurve.A * (x * x) + x) mod TinyCurve.p ->
      let X := x + TinyCurve.A * Z.invmod 3 TinyCurve.p in
      (y * y) mod TinyCurve.p = (X * X * X + a * X + b) mod TinyCurve.p.
Proof.
  assert (Hp3 : TinyCurve.p <> 3) by (unfold TinyCurve.p; lia).
  exact (conj (conj TinyCurve_p_prime Hp3)
           (montgomery_to_weierstrass_curve TinyCurve.A TinyCurve.p
              TinyCurve_p_prime Hp3)).
Defined.
